(** * PitchPerfectly: the live scoring HUD, the pitch worklet and the upload form

    A shallow embedding of the JavaScript sources

    - [frontend/src/components/LiveHUD.jsx]   (per-frame scorer, session handlers),
    - the AudioWorklet [PitchEnergyProcessor] (autocorrelation pitch estimate),
    - [frontend/src/components/SongUpload.jsx] (client-side file validation),

    together with a model of the NLMS echo canceller, whose source is not part
    of the tree and which is therefore written down from the design document.

    Numbers.  JavaScript numbers are modelled by exact rationals [Q]; rounding
    of binary floating point is not modelled.  Every division of the per-frame
    scorer and of the pitch estimate is guarded by the code itself (the
    reference pitch is tested [> 0], a beat interval is the distance between a
    beat after and a beat not after the current time, the best lag is tested
    [> 0]), so that arithmetic produces neither [NaN] nor [Infinity].  The
    averages of the final results can be [NaN], and are modelled by
    [option Q]; [undefined] is modelled by [option] as well.

    State.  React state is passed explicitly: a handler is a function of the
    state it reads, and returns the state it sets and what it does to the
    outside. *)

From Stdlib Require Import String QArith Qabs Qround Qminmax ZArith List Bool Lia Lqa.
From Stdlib Require Import Sorted.
Import ListNotations.

Open Scope Q_scope.

(* ------------------------------------------------------------------------- *)
(** ** JavaScript primitives used by the sources *)

Module JS.

(** [x > y], [x >= y], [x <= y] on numbers. *)
Definition gt (x y : Q) : bool := negb (Qle_bool x y).
Definition ge (x y : Q) : bool := Qle_bool y x.
Definition le (x y : Q) : bool := Qle_bool x y.

(** Truthiness of a number: [0] is falsy. *)
Definition truthy (x : Q) : bool := negb (Qeq_bool x 0).

(** Truthiness of a possibly undefined number. *)
Definition truthy_opt (x : option Q) : bool :=
  match x with
  | Some v => truthy v
  | None => false
  end.

(** [x || d] for a number [x]. *)
Definition or_num (x d : Q) : Q := if truthy x then x else d.

(** [x || d] for a possibly undefined number [x]. *)
Definition or_default (x : option Q) (d : Q) : Q :=
  match x with
  | Some v => or_num v d
  | None => d
  end.

(** [a[i]] for an integral index: [undefined] outside of [0 .. length-1]. *)
Definition index {A : Type} (a : list A) (i : Z) : option A :=
  if (i <? 0)%Z then None else nth_error a (Z.to_nat i).

(** [a.find(p)]: the first element satisfying [p]. *)
Definition find {A : Type} (p : A -> bool) (a : list A) : option A :=
  List.find p a.

(** [a.filter(p).pop()]: the last element satisfying [p]. *)
Definition filter_pop {A : Type} (p : A -> bool) (a : list A) : option A :=
  List.last (List.map Some (List.filter p a)) None.

End JS.

(* ------------------------------------------------------------------------- *)
(** ** LiveHUD.jsx: data *)

Module LiveHUD.

(** The [stats] state of the component. *)
Record Stats : Type := mkStats {
  st_pitch : Q;
  st_confidence : Q;
  st_energy : Q;
  st_onBeat : bool;
  st_combo : Q;
  st_timingErr : Q;
  st_motionScore : Q;
  st_totalScore : Q;
  st_pitchScore : Q;
  st_rhythmScore : Q;
  st_energyScore : Q
}.

(** The value passed to [useState] for [stats]. *)
Definition initialStats : Stats :=
  mkStats 0 0 0 false 0 0 0 0 0 0 0.

(** A phrase of the reference: [{ start, end }]. *)
Record Phrase : Type := mkPhrase {
  ph_start : Q;
  ph_end : Q
}.

(** The fields of the [referenceData] prop that the component reads.
    Optional fields are the ones read through [||] or [?.]. *)
Record ReferenceData : Type := mkReferenceData {
  refPitchHz : list Q;
  ref_beats : option (list Q);
  hopLength : option Q;
  sampleRate : option Q;
  duration : option Q;
  phrases : option (list Phrase)
}.

(** The score fields of the object returned by [calculateScoringMetrics]
    when scoring is enabled. *)
Record Scores : Type := mkScores {
  pitchScore : Q;
  rhythmScore : Q;
  energyScore : Q;
  totalScore : Q;
  onBeat : bool;
  timingErr : Q;
  combo : Q
}.

(** The object returned by [calculateScoringMetrics]: [{ pitch, confidence,
    energy }], extended by the score fields when scoring is enabled. *)
Record Metrics : Type := mkMetrics {
  pitch : Q;
  confidence : Q;
  energy : Q;
  scores : option Scores
}.

(** What the scorer reads from its closure. *)
Record ScorerEnv : Type := mkScorerEnv {
  referenceData : option ReferenceData;
  scoringEnabled : bool;
  currentTime : Q;
  beats : list Q;
  stats : Stats
}.

(** *** The rhythm block of [calculateScoringMetrics] *)

(** Its three outputs [(rhythmScore, onBeat, timingErr)], all unscaled. *)
Definition rhythmOf (env : ScorerEnv) : Q * bool * Q :=
  let currentTime := currentTime env in
  let beats := beats env in
  if (0 <? length beats)%nat then
    let nextBeat := JS.find (fun beat => JS.gt beat currentTime) beats in
    let prevBeat := JS.filter_pop (fun beat => JS.le beat currentTime) beats in
    match nextBeat, prevBeat with
    | Some nextBeat, Some prevBeat =>
        if JS.truthy nextBeat && JS.truthy prevBeat then
          let beatInterval := nextBeat - prevBeat in
          let timeFromPrevBeat := currentTime - prevBeat in
          let beatPosition := timeFromPrevBeat / beatInterval in
          let beatTolerance := 0.2 in
          if JS.ge beatPosition (1 - beatTolerance) && JS.le beatPosition beatTolerance
          then (1.0, true, 0)
          else
            let timingErr := Qmin (Qabs (beatPosition - 0.5)) 0.5 in
            (Qmax 0 (1 - timingErr * 2), false, timingErr)
        else (0, false, 0)
    | _, _ => (0, false, 0)
    end
  else (0, false, 0).

(** *** The pitch block *)

Definition frameIndexOf (rd : ReferenceData) (currentTime : Q) : Z :=
  let currentTimeMs := currentTime * 1000 in
  let hopSize := JS.or_default (hopLength rd) 512 in
  let sampleRate := JS.or_default (sampleRate rd) 22050 in
  Qfloor (currentTimeMs * sampleRate / hopSize).

(** The score of a detected pitch against a reference pitch [refPitch > 0]. *)
Definition pitchCurve (f0 refPitch : Q) : Q :=
  let pitchError := Qabs (f0 - refPitch) / refPitch in
  Qmax 0 (1 - pitchError * 2).

Definition pitchOf (rd : ReferenceData) (currentTime f0 : Q) : Q :=
  let frameIndex := frameIndexOf rd currentTime in
  if (frameIndex <? Z.of_nat (length (refPitchHz rd)))%Z && JS.gt f0 0 then
    match JS.index (refPitchHz rd) frameIndex with
    | Some refPitch =>
        if JS.gt refPitch 0 then pitchCurve f0 refPitch else 0
    | None => 0
    end
  else 0.

(** *** The energy line *)

Definition energyOf (energy : Q) : Q := Qmin (energy / 0.5) 1.0.

(** *** The combo field: [onBeat ? (stats.combo || 0) + 1 : 0] *)

Definition comboOf (onBeat : bool) (stats : Stats) : Q :=
  if onBeat then JS.or_num (st_combo stats) 0 + 1 else 0.

(** *** [calculateScoringMetrics] *)

Definition calculateScoringMetrics (env : ScorerEnv) (f0 energy confidence : Q)
  : Metrics :=
  match referenceData env with
  | Some rd =>
      if scoringEnabled env then
        let pitchScore := pitchOf rd (currentTime env) f0 in
        let '(rhythmScore, onBeat, timingErr) := rhythmOf env in
        let energyScore := energyOf energy in
        let totalScore :=
          (pitchScore * 0.6 +
           rhythmScore * 0.25 +
           energyScore * 0.1 +
           JS.or_num (st_motionScore (stats env)) 0 * 0.05) * 100 in
        mkMetrics f0 confidence energy
          (Some (mkScores (pitchScore * 100) (rhythmScore * 100)
                   (energyScore * 100) totalScore onBeat (timingErr * 100)
                   (comboOf onBeat (stats env))))
      else mkMetrics f0 confidence energy None
  | None => mkMetrics f0 confidence energy None
  end.

(** *** Session state and handlers *)

(** One entry of [sessionData]: [{ time, f0, energy, confidence, ...newStats }].
    The spread of [newStats] rewrites [energy] and [confidence] with the same
    values, so the entry is the time, the detected pitch and the metrics. *)
Record FrameData : Type := mkFrameData {
  time : Q;
  f0 : Q;
  metrics : Metrics
}.

(** The component state that the handlers read and write. *)
Record Hud : Type := mkHud {
  hud_stats : Stats;
  connected : bool;
  isRecording : bool;
  sessionStarted : bool;
  timerRunning : bool;
  sessionData : list FrameData;
  hud_currentTime : Q;
  hud_beats : list Q;
  hud_scoringEnabled : bool
}.

(** The values passed to [useState]. *)
Definition initialHud : Hud :=
  mkHud initialStats false false false false [] 0 [] false.

(** The effect of [useEffect(..., [referenceData])]. *)
Definition loadReference (rd : option ReferenceData) (h : Hud) : Hud :=
  match rd with
  | Some r =>
      mkHud (hud_stats h) (connected h) (isRecording h) (sessionStarted h)
        (timerRunning h) (sessionData h) (hud_currentTime h)
        (match ref_beats r with Some b => b | None => [] end) true
  | None => h
  end.

Definition scorerEnv (rd : option ReferenceData) (h : Hud) : ScorerEnv :=
  mkScorerEnv rd (hud_scoringEnabled h) (hud_currentTime h) (hud_beats h)
    (hud_stats h).

(** [{ ...prev, ...newStats }]. *)
Definition mergeStats (prev : Stats) (m : Metrics) : Stats :=
  match scores m with
  | Some s =>
      mkStats (pitch m) (confidence m) (energy m) (onBeat s) (combo s)
        (timingErr s) (st_motionScore prev) (totalScore s) (pitchScore s)
        (rhythmScore s) (energyScore s)
  | None =>
      mkStats (pitch m) (confidence m) (energy m) (st_onBeat prev)
        (st_combo prev) (st_timingErr prev) (st_motionScore prev)
        (st_totalScore prev) (st_pitchScore prev) (st_rhythmScore prev)
        (st_energyScore prev)
  end.

(** A message received on the worklet port. *)
Inductive Message : Type :=
| Frame (f0 energy confidence : Q)
| Other.

(** A number that may be [NaN]: sums over [sessionData] read score fields
    that are [undefined] on a frame recorded while scoring was disabled. *)
Definition jsnum : Type := option Q.

Definition num_add (a b : jsnum) : jsnum :=
  match a, b with
  | Some x, Some y => Some (x + y)
  | _, _ => None
  end.

Definition num_scale (a : jsnum) (k : Q) : jsnum :=
  match a with
  | Some x => Some (x * k)
  | None => None
  end.

(** [a >= k]; false on [NaN]. *)
Definition num_ge (a : jsnum) (k : Q) : bool :=
  match a with
  | Some x => JS.ge x k
  | None => false
  end.

(** [data.reduce((sum, f) => sum + f.field, 0) / data.length].  The sum of
    no frames is [0], and [0 / 0] is [NaN]. *)
Definition average (field : FrameData -> jsnum) (data : list FrameData) : jsnum :=
  let sum := List.fold_left (fun sum f => num_add sum (field f)) data (Some 0) in
  match sum with
  | Some s =>
      if (length data =? 0)%nat then None
      else Some (s / inject_Z (Z.of_nat (length data)))
  | None => None
  end.

Definition score_field (g : Scores -> Q) (f : FrameData) : jsnum :=
  option_map g (scores (metrics f)).

Definition f_pitchScore : FrameData -> jsnum := score_field pitchScore.
Definition f_rhythmScore : FrameData -> jsnum := score_field rhythmScore.
Definition f_energyScore : FrameData -> jsnum := score_field energyScore.
Definition f_totalScore : FrameData -> jsnum := score_field totalScore.
Definition f_energy (f : FrameData) : jsnum := Some (energy (metrics f)).

(** [frame.onBeat] as a condition: [undefined] is falsy. *)
Definition f_onBeat (f : FrameData) : bool :=
  match scores (metrics f) with
  | Some s => onBeat s
  | None => false
  end.

Inductive Badge : Type :=
| ComboKing (maxCombo : nat)
| OnBeatBandit
| MicMelter
| SmoothOperator.

(** The [forEach] of [calculateBadges]: [(maxCombo, currentCombo)]. *)
Definition comboStreak (data : list FrameData) : nat * nat :=
  List.fold_left
    (fun '(maxCombo, currentCombo) frame =>
       if f_onBeat frame
       then (Nat.max maxCombo (S currentCombo), S currentCombo)
       else (maxCombo, 0%nat))
    data (0%nat, 0%nat).

Definition calculateBadges (data : list FrameData) : list Badge :=
  let maxCombo := fst (comboStreak data) in
  (if (10 <=? maxCombo)%nat then [ComboKing maxCombo] else []) ++
  (if num_ge (average f_rhythmScore data) 80 then [OnBeatBandit] else []) ++
  (if num_ge (average f_energy data) 0.3 then [MicMelter] else []) ++
  (if num_ge (average f_pitchScore data) 85 then [SmoothOperator] else []).

Record PhraseResult : Type := mkPhraseResult {
  pr_phrase : nat;
  pr_start : Q;
  pr_end : Q;
  pr_pitchScore : jsnum;
  pr_rhythmScore : jsnum;
  pr_energyScore : jsnum;
  pr_totalScore : jsnum
}.

Record Totals : Type := mkTotals {
  tot_total : jsnum;
  tot_pitch : jsnum;
  tot_rhythm : jsnum;
  tot_energy : jsnum;
  tot_motion : Q
}.

Record Results : Type := mkResults {
  totals : Totals;
  perPhrase : list PhraseResult;
  res_badges : list Badge;
  pitchTimeline : list (Q * Q * jsnum);
  energyGraph : list (Q * Q);
  rhythmHeatmap : list (Q * option bool * jsnum)
}.

(** The body of the [forEach] over [referenceData.phrases]. *)
Definition phraseResult (data : list FrameData) (index : nat) (phrase : Phrase)
  : list PhraseResult :=
  let phraseData :=
    List.filter
      (fun frame => JS.ge (time frame) (ph_start phrase) &&
                    JS.le (time frame) (ph_end phrase)) data in
  if (0 <? length phraseData)%nat then
    let avgPitchScore := average f_pitchScore phraseData in
    let avgRhythmScore := average f_rhythmScore phraseData in
    let avgEnergyScore := average f_energyScore phraseData in
    [mkPhraseResult index (ph_start phrase) (ph_end phrase)
       avgPitchScore avgRhythmScore avgEnergyScore
       (num_add (num_add (num_scale avgPitchScore 0.6)
                         (num_scale avgRhythmScore 0.25))
                (num_scale avgEnergyScore 0.1))]
  else [].

Fixpoint phraseResults (data : list FrameData) (index : nat) (ps : list Phrase)
  : list PhraseResult :=
  match ps with
  | [] => []
  | phrase :: rest =>
      phraseResult data index phrase ++ phraseResults data (S index) rest
  end.

(** [calculateFinalResults]: [None] when it returns at its first line,
    otherwise the argument of [onSessionComplete]. *)
Definition calculateFinalResults (rd : option ReferenceData) (h : Hud)
  : option Results :=
  let sessionData := sessionData h in
  if (length sessionData =? 0)%nat then None
  else
    let phraseResults :=
      match rd with
      | Some r =>
          match phrases r with
          | Some ps => phraseResults sessionData 0 ps
          | None => []
          end
      | None => []
      end in
    let earnedBadges := calculateBadges sessionData in
    let totals :=
      mkTotals (average f_totalScore sessionData)
               (average f_pitchScore sessionData)
               (average f_rhythmScore sessionData)
               (average f_energyScore sessionData)
               (JS.or_num (st_motionScore (hud_stats h)) 0) in
    Some (mkResults totals phraseResults earnedBadges
            (List.map (fun f => (time f, pitch (metrics f), f_pitchScore f))
               sessionData)
            (List.map (fun f => (time f, energy (metrics f))) sessionData)
            (List.map (fun f => (time f, option_map onBeat (scores (metrics f)),
                                 score_field timingErr f))
               sessionData)).

(** What a handler does to the outside. *)
Inductive Effect : Type :=
| WsSendHud (payload : Stats)
| OnStartSession
| OnSessionComplete (results : Results).

(** [handleAudioData]. *)
Definition handleAudioData (rd : option ReferenceData) (h : Hud) (msg : Message)
  : Hud * list Effect :=
  match msg with
  | Frame f0 energy confidence =>
      let newStats := calculateScoringMetrics (scorerEnv rd h) f0 energy confidence in
      let frameData := mkFrameData (hud_currentTime h) f0 newStats in
      (mkHud (mergeStats (hud_stats h) newStats) (connected h) (isRecording h)
         (sessionStarted h) (timerRunning h) (sessionData h ++ [frameData])
         (hud_currentTime h) (hud_beats h) (hud_scoringEnabled h),
       if connected h then [WsSendHud (mergeStats (hud_stats h) newStats)] else [])
  | Other => (h, [])
  end.

(** [startSession]. *)
Definition startSession (h : Hud) : Hud * list Effect :=
  if negb (sessionStarted h) then
    (mkHud (hud_stats h) (connected h) true true true [] 0 (hud_beats h)
       (hud_scoringEnabled h),
     [OnStartSession])
  else (h, []).

(** [stopSession]. *)
Definition stopSession (rd : option ReferenceData) (h : Hud) : Hud * list Effect :=
  (mkHud (hud_stats h) (connected h) false (sessionStarted h) (timerRunning h)
     (sessionData h) (hud_currentTime h) (hud_beats h) (hud_scoringEnabled h),
   match calculateFinalResults rd h with
   | Some results => [OnSessionComplete results]
   | None => []
   end).

(** The callback of [setInterval(..., 20)]. *)
Definition tick (h : Hud) : Hud :=
  mkHud (hud_stats h) (connected h) (isRecording h) (sessionStarted h)
    (timerRunning h) (sessionData h) (hud_currentTime h + 0.02) (hud_beats h)
    (hud_scoringEnabled h).

(** The callback of the auto-stop [setTimeout]: [stopSession(); clearInterval(timer)]. *)
Definition autoStop (rd : option ReferenceData) (h : Hud) : Hud * list Effect :=
  let '(h', out) := stopSession rd h in
  (mkHud (hud_stats h') (connected h') (isRecording h') (sessionStarted h')
     false (sessionData h') (hud_currentTime h') (hud_beats h')
     (hud_scoringEnabled h'),
   out).

(** The condition of the combo popup in [draw]. *)
Definition comboPopup (s : Stats) : bool := JS.gt (st_combo s) 5.

(** *** The component in its environment

    The worklet posts frame messages to a port; the event loop delivers
    them, oldest first, to [handleAudioData].  The button calls
    [stopSession] when a session was started and [startSession] otherwise. *)

Inductive Event : Type :=
| Post (msg : Message)
| Deliver
| Click
| Tick
| Timeout.

Record World : Type := mkWorld {
  hud : Hud;
  port : list Message;
  emitted : list Effect
}.

(** [startSession] arms the auto-stop only under [referenceData?.duration]. *)
Definition autoStopArmed (rd : option ReferenceData) : bool :=
  match rd with
  | Some r => JS.truthy_opt (duration r)
  | None => false
  end.


Definition step (rd : option ReferenceData) (w : World) (e : Event) : World :=
  match e with
  | Post msg => mkWorld (hud w) (port w ++ [msg]) (emitted w)
  | Deliver =>
      match port w with
      | msg :: rest =>
          let '(h, out) := handleAudioData rd (hud w) msg in
          mkWorld h rest (emitted w ++ out)
      | [] => w
      end
  | Click =>
      let '(h, out) :=
        if sessionStarted (hud w) then stopSession rd (hud w)
        else startSession (hud w) in
      mkWorld h (port w) (emitted w ++ out)
  | Tick =>
      if timerRunning (hud w) then mkWorld (tick (hud w)) (port w) (emitted w)
      else w
  | Timeout =>
      if timerRunning (hud w) && autoStopArmed rd then
        let '(h, out) := autoStop rd (hud w) in
        mkWorld h (port w) (emitted w ++ out)
      else w
  end.

Definition run (rd : option ReferenceData) (w : World) (es : list Event) : World :=
  List.fold_left (step rd) es w.

End LiveHUD.

(* ------------------------------------------------------------------------- *)
(** ** The AudioWorklet processor [PitchEnergyProcessor] *)

Module PitchWorklet.

(** The length of [this.buf]. *)
Definition bufLength : nat := 2048.

(** [buf[i]] for an index inside the buffer. *)
Definition at_ (buf : list Q) (i : nat) : Q := nth i buf 0.

(** The inner loop of [estimatePitch]:
    [for (let i=0; i<n-lag; i++) sum += buf[i]*buf[i+lag]].
    Lags are non-negative, as the sample rate is. *)
Definition acf (buf : list Q) (lag : Z) : Q :=
  let n := Z.of_nat (length buf) in
  List.fold_left
    (fun sum i => sum + at_ buf i * at_ buf (i + Z.to_nat lag))
    (List.seq 0 (Z.to_nat (n - lag))) 0.

(** One round of the outer loop on [(bestLag, best)]. *)
Definition lagStep (buf : list Q) (st : Z * Q) (lag : Z) : Z * Q :=
  let '(bestLag, best) := st in
  let sum := acf buf lag in
  if JS.gt sum best then (lag, sum) else (bestLag, best).

(** The lags [minLag, minLag+1, ..., maxLag-1]. *)
Definition lags (minLag maxLag : Z) : list Z :=
  List.map (fun k => (minLag + Z.of_nat k)%Z)
    (List.seq 0 (Z.to_nat (maxLag - minLag))).

Definition maxLagOf (sr : Q) : Z := Qfloor (sr / 60).
Definition minLagOf (sr : Q) : Z := Qfloor (sr / 1000).

(** The outer loop, from [bestLag = -1, best = 0]. *)
Definition searchLag (buf : list Q) (sr : Q) : Z * Q :=
  List.fold_left (lagStep buf) (lags (minLagOf sr) (maxLagOf sr)) ((-1)%Z, 0).

(** [estimatePitch(buf, sr)]. *)
Definition estimatePitch (buf : list Q) (sr : Q) : Q :=
  let bestLag := fst (searchLag buf sr) in
  if (0 <? bestLag)%Z then sr / inject_Z bestLag else 0.

(** The [confidence] field of the posted message: [f0>0?0.8:0.2]. *)
Definition confidenceOf (f0 : Q) : Q := if JS.gt f0 0 then 0.8 else 0.2.

Section Processor.

(** [Math.sqrt], which has no rational model, is a parameter. *)
Variable sqrt : Q -> Q.

(** The global [sampleRate] of the worklet scope. *)
Variable sampleRate : Q.

(** [rootMeanSquare(buf)]. *)
Definition rootMeanSquare (buf : list Q) : Q :=
  let s := List.fold_left (fun s x => s + x * x) buf 0 in
  sqrt (s / inject_Z (Z.of_nat (length buf))).

(** The message posted for a full buffer. *)
Definition frameMessage (buf : list Q) : LiveHUD.Message :=
  let f0 := estimatePitch buf sampleRate in
  let energy := rootMeanSquare buf in
  LiveHUD.Frame f0 energy (confidenceOf f0).

(** The fields [buf] and [idx] of the processor. *)
Record Processor : Type := mkProcessor {
  buf : list Q;
  idx : nat
}.

(** The constructor: a zeroed buffer of 2048 samples. *)
Definition newProcessor : Processor :=
  mkProcessor (List.repeat 0 bufLength) 0.

(** [this.buf[i] = x] inside the buffer. *)
Fixpoint store (b : list Q) (i : nat) (x : Q) : list Q :=
  match b, i with
  | [], _ => []
  | _ :: rest, O => x :: rest
  | y :: rest, S j => y :: store rest j x
  end.

(** The body of the sample loop of [process]. *)
Definition sample (st : Processor * list LiveHUD.Message) (x : Q)
  : Processor * list LiveHUD.Message :=
  let '(p, posted) := st in
  let b := store (buf p) (idx p) x in
  let i := S (idx p) in
  if (length b <=? i)%nat
  then (mkProcessor b 0, posted ++ [frameMessage b])
  else (mkProcessor b i, posted).

(** [process(inputs, ...)] on [inputs[0]]; the messages posted, in order. *)
Definition process (p : Processor) (input : option (list (list Q)))
  : Processor * list LiveHUD.Message :=
  match input with
  | Some (ch :: _) => List.fold_left sample ch (p, [])
  | Some [] => (p, [])
  | None => (p, [])
  end.

End Processor.

End PitchWorklet.

(* ------------------------------------------------------------------------- *)
(** ** SongUpload.jsx *)

Module SongUpload.

(** The fields of a [File] that the component reads. *)
Record File : Type := mkFile {
  type : string;
  size : Z
}.

Record UploadState : Type := mkUploadState {
  isUploading : bool;
  uploadProgress : Z;
  dragActive : bool
}.

(** What the server answers to the upload request. *)
Inductive Reply : Type :=
| Ok (track_id filename : string)
| NotOk
| NetworkError.

(** The steps a handler takes, in order. *)
Inductive Action : Type :=
| Alert (text : string)
| SetIsUploading (b : bool)
| SetUploadProgress (n : Z)
| FetchUpload (file : File)
| OnSongUploaded (track_id filename : string)
| ConsoleError.

Definition allowedTypes : list string :=
  ["audio/mpeg"; "audio/wav"; "audio/mp3"; "audio/x-wav"]%string.

(** [allowedTypes.includes(t)]. *)
Definition includes (l : list string) (t : string) : bool :=
  List.existsb (String.eqb t) l.

Definition sizeLimit : Z := 50 * 1024 * 1024.

(** [uploadFile]. *)
Definition uploadFile (reply : Reply) (file : File) : list Action :=
  [SetIsUploading true; SetUploadProgress 0; FetchUpload file] ++
  match reply with
  | Ok track_id filename => [OnSongUploaded track_id filename]
  | NotOk => [ConsoleError; Alert "Upload failed. Please try again."]
  | NetworkError => [ConsoleError; Alert "Upload failed. Please try again."]
  end ++
  [SetIsUploading false; SetUploadProgress 0].

(** [handleFileSelect]. *)
Definition handleFileSelect (reply : Reply) (file : option File) : list Action :=
  match file with
  | None => []
  | Some file =>
      if negb (includes allowedTypes (type file)) then
        [Alert "Please select an MP3 or WAV file."]
      else if (sizeLimit <? size file)%Z then
        [Alert "File too large. Please select a file under 50MB."]
      else uploadFile reply file
  end.

(** The state after an action. *)
Definition apply (st : UploadState) (a : Action) : UploadState :=
  match a with
  | SetIsUploading b => mkUploadState b (uploadProgress st) (dragActive st)
  | SetUploadProgress n => mkUploadState (isUploading st) n (dragActive st)
  | _ => st
  end.

Definition applyAll (st : UploadState) (l : list Action) : UploadState :=
  List.fold_left apply l st.

Definition isRequest (a : Action) : bool :=
  match a with
  | FetchUpload _ => true
  | _ => false
  end.

End SongUpload.

(* ------------------------------------------------------------------------- *)
(** ** The NLMS echo canceller *)

Module EchoCanceller.

(** Modelled from the spec: the configuration of the canceller, whose source
    file (the echo-cancelling worklet) is missing from the tree.  The filter
    has a fixed length (512 taps by default), a step size (0.01 by default)
    and the [epsilon] of the normalisation. *)
Record Config : Type := mkConfig {
  taps : nat;
  step_size : Q;
  epsilon : Q
}.

(** Modelled from the spec: the defaults of the missing canceller, 512 taps
    and a step size of 0.01; the spec gives no value for [epsilon]. *)
Definition defaultConfig (eps : Q) : Config := mkConfig 512 0.01 eps.

(** Modelled from the spec: the canceller state missing from the tree, the
    filter coefficients and the rolling history of the reference signal,
    most recent sample first. *)
Record State : Type := mkState {
  weights : list Q;
  history : list Q
}.

(** Modelled from the spec: the reset at session start, missing from the
    tree; the filter and the history are cleared. *)
Definition reset (c : Config) : State :=
  mkState (List.repeat 0 (taps c)) (List.repeat 0 (taps c)).

(** Modelled from the spec: the dot product of the weights and the most
    recent reference samples (the prediction of the missing canceller). *)
Fixpoint dot (w h : list Q) : Q :=
  match w, h with
  | wi :: w', hi :: h' => wi * hi + dot w' h'
  | _, _ => 0
  end.

(** Modelled from the spec: the running energy of the reference window of
    the missing canceller. *)
Definition power (h : list Q) : Q :=
  List.fold_right (fun x acc => x * x + acc) 0 h.

(** Modelled from the spec: the rolling history of the missing canceller
    takes the new reference sample and keeps its length. *)
Definition push (r : Q) (h : list Q) : list Q :=
  match h with
  | [] => []
  | _ :: _ => r :: List.removelast h
  end.

(** Modelled from the spec: the weight update of the missing canceller,
    [step_size * error * reference_sample / (power + epsilon)] added to each
    weight.  The division is partial: there is no result when
    [power + epsilon] is zero. *)
Definition update (c : Config) (error : Q) (w h : list Q) : option (list Q) :=
  let norm := power h + epsilon c in
  if Qeq_bool norm 0 then None
  else
    Some (List.map (fun '(wi, hi) => wi + step_size c * error * hi / norm)
            (List.combine w h)).

(** Modelled from the spec: one sample of the missing canceller.  The
    prediction is the dot product, the error is the microphone sample less
    the prediction, the voice estimate is the error. *)
Definition cancel (c : Config) (st : State) (mic ref : Q) : option (State * Q) :=
  let h := push ref (history st) in
  let prediction := dot (weights st) h in
  let error := mic - prediction in
  match update c error (weights st) h with
  | Some w => Some (mkState w h, error)
  | None => None
  end.

(** Modelled from the spec: the missing canceller on a sequence of
    (microphone, reference) samples; the final state and the voice estimates. *)
Fixpoint cancelAll (c : Config) (st : State) (io : list (Q * Q))
  : option (State * list Q) :=
  match io with
  | [] => Some (st, [])
  | (mic, ref) :: rest =>
      match cancel c st mic ref with
      | Some (st', out) =>
          match cancelAll c st' rest with
          | Some (st'', outs) => Some (st'', out :: outs)
          | None => None
          end
      | None => None
      end
  end.

End EchoCanceller.

(* ------------------------------------------------------------------------- *)
(** ** LiveHUD.jsx: the geometry of [draw] *)

Module HudCanvas.

(** A rectangle passed to [ctx.fillRect(x, y, width, height)]. *)
Record Rect : Type := mkRect {
  rx : Q;
  ry : Q;
  rwidth : Q;
  rheight : Q
}.

(** The canvas element: [<canvas width={800} height={300}>]. *)
Definition canvasWidth : Q := 800.
Definition canvasHeight : Q := 300.

(** The pitch bar of [draw]. *)
Definition pitchBar (w h : Q) (stats : LiveHUD.Stats) : Rect :=
  let pitchNorm := Qmin 1 (LiveHUD.st_pitch stats / 1000) in
  mkRect 20 (h - 40) ((w - 40) * pitchNorm) 12.

(** The energy meter of [draw]. *)
Definition energyMeter (w h : Q) (stats : LiveHUD.Stats) : Rect :=
  let eNorm := Qmin 1 (LiveHUD.st_energy stats / 1.0) in
  mkRect 20 (h - 70) ((w - 40) * eNorm) 10.

(** The timing indicator of [draw]. *)
Definition timingIndicator (w h : Q) (stats : LiveHUD.Stats) : Rect :=
  let center := w / 2 in
  mkRect (center - 2 + LiveHUD.st_timingErr stats * 50) 20 4 20.

End HudCanvas.

(* ------------------------------------------------------------------------- *)
(** ** SongUpload.jsx: drag, drop and the file input *)

Module SongDrop.

(** The [type] of a drag event, as far as [handleDrag] tells them apart. *)
Inductive DragEvent : Type :=
| DragEnter
| DragOver
| DragLeave
| DragOther.

(** [handleDrag]. *)
Definition handleDrag (st : SongUpload.UploadState) (e : DragEvent)
  : SongUpload.UploadState :=
  match e with
  | DragEnter | DragOver =>
      SongUpload.mkUploadState (SongUpload.isUploading st)
        (SongUpload.uploadProgress st) true
  | DragLeave =>
      SongUpload.mkUploadState (SongUpload.isUploading st)
        (SongUpload.uploadProgress st) false
  | DragOther => st
  end.

(** [files && files[0]], then [handleFileSelect(files[0])]. *)
Definition selectFirst (reply : SongUpload.Reply)
  (files : option (list SongUpload.File)) : list SongUpload.Action :=
  match files with
  | Some (file :: _) => SongUpload.handleFileSelect reply (Some file)
  | Some [] => []
  | None => []
  end.

(** [handleDrop]: the state once the highlight is cleared, and the steps of
    the selection. *)
Definition handleDrop (reply : SongUpload.Reply) (st : SongUpload.UploadState)
  (files : option (list SongUpload.File))
  : SongUpload.UploadState * list SongUpload.Action :=
  (SongUpload.mkUploadState (SongUpload.isUploading st)
     (SongUpload.uploadProgress st) false,
   selectFirst reply files).

(** [handleFileInputChange]. *)
Definition handleFileInputChange (reply : SongUpload.Reply)
  (files : option (list SongUpload.File)) : list SongUpload.Action :=
  selectFirst reply files.

End SongDrop.

(* ------------------------------------------------------------------------- *)
(** * Vocabulary of the statements *)

Import LiveHUD.

(** ** Scoring situations *)

(** A reference with a single pitch sample of 220 Hz, and a scorer at time 0
    with no beats and no motion score. *)
Definition oneNote : ReferenceData :=
  mkReferenceData [220] None None None None None.

Definition plainEnv : ScorerEnv :=
  mkScorerEnv (Some oneNote) true 0 [] initialStats.

(** The score fields of a result, or zeros when there are none. *)
Definition scoresOf (m : Metrics) : Scores :=
  match scores m with
  | Some s => s
  | None => mkScores 0 0 0 0 false 0 0
  end.

(** A reference with 5000 pitch samples of 220 Hz and six beats 20 ms apart. *)
Definition steadyNote : ReferenceData :=
  mkReferenceData (List.repeat 220 5000)
    (Some [0.01; 0.03; 0.05; 0.07; 0.09; 0.11]) None None None None.

(** The HUD once [steadyNote] is loaded, with a motion score of 1. *)
Definition steadyHud : Hud :=
  loadReference (Some steadyNote)
    (mkHud (mkStats 0 0 0 false 0 0 1 0 0 0 0) false false false false [] 0 []
       false).

(** The scorer of [steadyHud]. *)
Definition steadyEnv : ScorerEnv := scorerEnv (Some steadyNote) steadyHud.



(** ** The trace and the port *)

(** The message a trace entry was made from. *)
Definition payload (f : FrameData) : Message :=
  Frame (f0 f) (energy (metrics f)) (confidence (metrics f)).



(** A trace entry that has score fields. *)
Definition scored (f : FrameData) : Prop := scores (metrics f) <> None.

(** No average of a phrase result is [NaN]. *)
Definition phraseIsNumeric (p : PhraseResult) : Prop :=
  pr_pitchScore p <> None /\ pr_rhythmScore p <> None /\
  pr_energyScore p <> None /\ pr_totalScore p <> None.

(** ** Signals *)


(** A square wave of period 100 samples: at 48 kHz, 480 Hz. *)
Definition squareWave (n : nat) : list Q :=
  List.map (fun i => if (i mod 100 <? 50)%nat then 1 else -1) (List.seq 0 n).

(** A window of reference samples that are all zero. *)
Definition silent (h : list Q) : Prop := Forall (fun x => x == 0) h.

(** ** Further situations *)

(** The scorer of [steadyNote] half-way between its first two beats. *)
Definition midBeatEnv : ScorerEnv :=
  mkScorerEnv (Some steadyNote) true 0.02
    [0.01; 0.03; 0.05; 0.07; 0.09; 0.11] initialStats.


(** The HUD with [oneNote] loaded, after one frame. *)
Definition oneFrameHud : Hud :=
  fst (handleAudioData (Some oneNote) (loadReference (Some oneNote) initialHud)
         (Frame 220 (1 # 4) 0.8)).

(** The published results, or empty ones when nothing is published. *)
Definition resultsOf (o : option Results) : Results :=
  match o with
  | Some r => r
  | None => mkResults (mkTotals None None None None 0) [] [] [] [] []
  end.

(** A rational stand-in for [Math.sqrt]: the root to three decimals, from
    below. *)
Definition sqrtLower (x : Q) : Q :=
  inject_Z (Z.sqrt (Qfloor (x * 1000000))) / 1000.

(** ** Predicates on traces and results *)



(** A stretch of frames that are all on the beat. *)
Definition onBeatRun (l : list FrameData) : Prop :=
  Forall (fun f => f_onBeat f = true) l.

(** The [reduce] of an average, from any accumulator. *)
Definition sumOf (field : FrameData -> jsnum) (data : list FrameData) (acc : jsnum)
  : jsnum :=
  List.fold_left (fun sum f => num_add sum (field f)) data acc.

(** A frame whose score fields are all between 0 and 100. *)
Definition frameInRange (f : FrameData) : Prop :=
  exists s, scores (metrics f) = Some s /\
            0 <= pitchScore s <= 100 /\ 0 <= rhythmScore s <= 100 /\
            0 <= energyScore s <= 100 /\ 0 <= totalScore s <= 100.

(** A number that is not [NaN] and lies between two bounds. *)
Definition numInRange (a : jsnum) (lo hi : Q) : Prop :=
  exists q, a = Some q /\ lo <= q <= hi.

(** The frame filter of a phrase. *)
Definition inPhrase (phrase : Phrase) (f : FrameData) : Prop :=
  ph_start phrase <= time f <= ph_end phrase.

(* ------------------------------------------------------------------------- *)
(** * Properties *)

(** ** Comparisons and defaults *)

Lemma gt_spec (x y : Q) : reflect (y < x) (JS.gt x y).
Proof.
  unfold JS.gt. destruct (Qle_bool x y) eqn:E; constructor.
  - apply Qle_bool_iff in E. intro. lra.
  - apply Qnot_le_lt. intro H. apply Qle_bool_iff in H. congruence.
Qed.

Lemma le_spec (x y : Q) : reflect (x <= y) (JS.le x y).
Proof.
  unfold JS.le. destruct (Qle_bool x y) eqn:E; constructor.
  - now apply Qle_bool_iff.
  - intro H. apply Qle_bool_iff in H. congruence.
Qed.

Lemma ge_spec (x y : Q) : reflect (y <= x) (JS.ge x y).
Proof. exact (le_spec y x). Qed.

Lemma or_num_zero (x : Q) : JS.or_num x 0 == x.
Proof.
  unfold JS.or_num, JS.truthy. destruct (Qeq_bool x 0) eqn:E; simpl.
  - apply Qeq_bool_eq in E. lra.
  - reflexivity.
Qed.

(** A result with score fields comes from the scoring branch: the goal
    [scores (calculateScoringMetrics env ...) = Some s -> G] is reduced to [G]
    on the fields of that branch, with the outputs of the rhythm block named. *)
Ltac scored_result r o t :=
  unfold calculateScoringMetrics;
  match goal with
  | |- context [referenceData ?env] =>
      destruct (referenceData env) as [?rd|]; [|discriminate];
      destruct (scoringEnabled env); [|discriminate];
      destruct (rhythmOf env) as [[r o] t]
  end;
  let H := fresh "H" in
  intro H; injection H as <-.

(** The object returned when scoring is on, field by field. *)
Lemma scored_metrics
  (env : ScorerEnv) (rd : ReferenceData) (f0 energy confidence : Q) :
  referenceData env = Some rd ->
  scoringEnabled env = true ->
  scores (calculateScoringMetrics env f0 energy confidence) =
    let '(rhythmScore, onBeat, timingErr) := rhythmOf env in
    Some (mkScores
            (pitchOf rd (currentTime env) f0 * 100) (rhythmScore * 100)
            (energyOf energy * 100)
            ((pitchOf rd (currentTime env) f0 * 0.6 + rhythmScore * 0.25
              + energyOf energy * 0.1
              + JS.or_num (st_motionScore (stats env)) 0 * 0.05) * 100)
            onBeat (timingErr * 100)
            (comboOf onBeat (stats env))).
Proof.
  intros Hrd Hen. unfold calculateScoringMetrics. rewrite Hrd, Hen.
  now destruct (rhythmOf env) as [[r o] t].
Qed.

(** Without reference data, or with scoring off, there are no score fields. *)
Lemma unscored_metrics (env : ScorerEnv) (f0 energy confidence : Q) :
  referenceData env = None \/ scoringEnabled env = false ->
  scores (calculateScoringMetrics env f0 energy confidence) = None.
Proof.
  unfold calculateScoringMetrics.
  intros [H | H]; rewrite H; [reflexivity|].
  now destruct (referenceData env).
Qed.

Lemma index_in_range {A : Type} (a : list A) (i : Z) (x : A) :
  JS.index a i = Some x -> (0 <= i < Z.of_nat (length a))%Z.
Proof.
  unfold JS.index. destruct (Z.ltb_spec i 0) as [Hneg | Hpos]; [discriminate|].
  intro H. assert (Hlt : (Z.to_nat i < length a)%nat).
  { apply nth_error_Some. congruence. }
  lia.
Qed.

(** ** The divisions of the scorer are guarded *)

Lemma or_default_nonzero (x : option Q) (d : Q) :
  ~ d == 0 -> ~ JS.or_default x d == 0.
Proof.
  intro Hd. unfold JS.or_default, JS.or_num, JS.truthy.
  destruct x as [v|]; [|assumption].
  destruct (Qeq_bool v 0) eqn:E; cbn [negb]; [assumption|].
  now apply Qeq_bool_neq.
Qed.

Lemma filter_pop_some {A : Type} (p : A -> bool) (a : list A) (x : A) :
  JS.filter_pop p a = Some x -> In x a /\ p x = true.
Proof.
  unfold JS.filter_pop. intro H. apply filter_In.
  induction (List.filter p a) as [|y l IH]; [discriminate|].
  cbn [List.map last] in H. destruct l as [|z l].
  - injection H as ->. now left.
  - right. now apply IH.
Qed.

(** The hop size divides the frame position; it is never 0. *)
Lemma hop_size_nonzero (rd : ReferenceData) :
  ~ JS.or_default (hopLength rd) 512 == 0.
Proof. apply or_default_nonzero. discriminate. Qed.

(** The beat interval divides the time since the previous beat; it is
    positive, the next beat being after the current time and the previous one
    not. *)
Lemma beat_interval_positive (env : ScorerEnv) (nextBeat prevBeat : Q) :
  JS.find (fun beat => JS.gt beat (currentTime env)) (beats env) = Some nextBeat ->
  JS.filter_pop (fun beat => JS.le beat (currentTime env)) (beats env)
    = Some prevBeat ->
  0 < nextBeat - prevBeat.
Proof.
  intros Hnext Hprev.
  apply List.find_some in Hnext as [_ Hn].
  apply filter_pop_some in Hprev as [_ Hp].
  destruct (gt_spec nextBeat (currentTime env)); [|discriminate].
  destruct (le_spec prevBeat (currentTime env)); [|discriminate].
  lra.
Qed.

(** ** The combined frame score *)

(** C1, amended: with reference data loaded and scoring enabled, the combined
    frame score is the weighted sum of four sub-scores, 60% pitch, 25% rhythm,
    10% energy and 5% motion (the motion score of the HUD statistics counted on
    the 0..1 scale, the others on the 0..100 scale they are returned on). *)
Theorem total_score_weights
  (env : ScorerEnv) (rd : ReferenceData) (f0 energy confidence : Q) :
  referenceData env = Some rd ->
  scoringEnabled env = true ->
  exists s,
    scores (calculateScoringMetrics env f0 energy confidence) = Some s /\
    totalScore s ==
      0.6 * pitchScore s + 0.25 * rhythmScore s + 0.1 * energyScore s
      + 5 * st_motionScore (stats env).
Proof.
  intros Hrd Hen. unfold calculateScoringMetrics. rewrite Hrd, Hen.
  destruct (rhythmOf env) as [[r o] t].
  eexists. split; [reflexivity|].
  cbn [totalScore pitchScore rhythmScore energyScore].
  rewrite or_num_zero. lra.
Qed.

Lemma total_score_weights_witness :
  exists s,
    scores (calculateScoringMetrics plainEnv 220 (1 # 4) 0.8) = Some s /\
    totalScore s ==
      0.6 * pitchScore s + 0.25 * rhythmScore s + 0.1 * energyScore s
      + 5 * st_motionScore (stats plainEnv).
Proof.
  apply (total_score_weights plainEnv oneNote 220 (1 # 4) 0.8); reflexivity.
Defined.

(** C1 as stated fails: a frame with a perfect pitch score and an energy score
    of 50 has the combined score 65, where 70% pitch and 30% energy give 85. *)
Lemma total_score_not_70_30 :
  let s := scoresOf (calculateScoringMetrics plainEnv 220 (1 # 4) 0.8) in
  pitchScore s == 100 /\ energyScore s == 50 /\ totalScore s == 65 /\
  ~ totalScore s == 0.7 * pitchScore s + 0.3 * energyScore s.
Proof.
  vm_compute. repeat split; try reflexivity; discriminate.
Qed.

(** ** The pitch score *)

Lemma pitchOf_curve (rd : ReferenceData) (t f0 refPitch : Q) :
  JS.index (refPitchHz rd) (frameIndexOf rd t) = Some refPitch ->
  0 < f0 -> 0 < refPitch ->
  pitchOf rd t f0 = pitchCurve f0 refPitch.
Proof.
  intros Hidx Hf0 Href. unfold pitchOf.
  destruct (index_in_range _ _ _ Hidx) as [_ Hlt].
  apply Z.ltb_lt in Hlt. rewrite Hlt, Hidx.
  destruct (gt_spec f0 0); [|contradiction].
  destruct (gt_spec refPitch 0); [|contradiction].
  reflexivity.
Qed.

Section PitchCurve.

Variables f0 refPitch : Q.
Hypothesis refPitch_pos : 0 < refPitch.

Let err : Q := Qabs (f0 - refPitch) / refPitch.

Lemma err_nonneg : 0 <= err.
Proof.
  unfold err. apply Qle_shift_div_l; [assumption|].
  rewrite Qmult_0_l. apply Qabs_nonneg.
Qed.

Lemma pitchCurve_range : 0 <= pitchCurve f0 refPitch <= 1.
Proof.
  unfold pitchCurve. fold err. pose proof err_nonneg.
  destruct (Q.max_spec 0 (1 - err * 2)) as [[? ->] | [? ->]]; lra.
Qed.

Lemma pitchCurve_exact : f0 == refPitch -> pitchCurve f0 refPitch == 1.
Proof.
  intro Heq. unfold pitchCurve. fold err.
  assert (He : err == 0).
  { unfold err. setoid_replace (f0 - refPitch) with 0 by lra.
    simpl Qabs. field. lra. }
  rewrite He. destruct (Q.max_spec 0 (1 - 0 * 2)) as [[? ->] | [? ->]]; lra.
Qed.

Lemma pitchCurve_zero :
  refPitch <= 2 * Qabs (f0 - refPitch) -> pitchCurve f0 refPitch == 0.
Proof.
  intro Hfar. unfold pitchCurve. fold err.
  assert (He : 1 # 2 <= err).
  { unfold err. apply Qle_shift_div_l; [assumption | lra]. }
  destruct (Q.max_spec 0 (1 - err * 2)) as [[? ->] | [? ->]]; lra.
Qed.

Lemma pitchCurve_linear :
  2 * Qabs (f0 - refPitch) <= refPitch ->
  pitchCurve f0 refPitch == 1 - 2 * Qabs (f0 - refPitch) / refPitch.
Proof.
  intro Hnear. unfold pitchCurve. fold err.
  assert (He : err <= 1 # 2).
  { unfold err. apply Qle_shift_div_r; [assumption | lra]. }
  assert (Hd : 2 * Qabs (f0 - refPitch) / refPitch == err * 2).
  { unfold err. field. lra. }
  rewrite Hd.
  destruct (Q.max_spec 0 (1 - err * 2)) as [[? ->] | [? ->]]; lra.
Qed.

End PitchCurve.

(** C2, amended: on a scored frame whose detected pitch and reference pitch
    (the entry of [refPitchHz] at the frame index) are both positive, the pitch
    score is linear in the relative frequency error,
    [max(0, 1 - 2 * |f0 - ref| / ref)], returned on the scale 0..100.  It is
    100 when the two pitches are equal, lies between 0 and 100, falls linearly
    while the error is at most half the reference, and is 0 from there on; in
    particular a pitch one octave above the reference scores 0. *)
Theorem pitch_score_relative_error
  (env : ScorerEnv) (rd : ReferenceData) (f0 energy confidence refPitch : Q) :
  referenceData env = Some rd ->
  scoringEnabled env = true ->
  JS.index (refPitchHz rd) (frameIndexOf rd (currentTime env)) = Some refPitch ->
  0 < f0 ->
  0 < refPitch ->
  exists s,
    scores (calculateScoringMetrics env f0 energy confidence) = Some s /\
    pitchScore s == 100 * Qmax 0 (1 - 2 * (Qabs (f0 - refPitch) / refPitch)) /\
    (0 <= pitchScore s <= 100) /\
    (f0 == refPitch -> pitchScore s == 100) /\
    (2 * Qabs (f0 - refPitch) <= refPitch ->
     pitchScore s == 100 - 200 * Qabs (f0 - refPitch) / refPitch) /\
    (refPitch <= 2 * Qabs (f0 - refPitch) -> pitchScore s == 0) /\
    (f0 == 2 * refPitch -> pitchScore s == 0).
Proof.
  intros Hrd Hen Hidx Hf0 Href.
  pose proof (scored_metrics env rd f0 energy confidence Hrd Hen) as Hs.
  destruct (rhythmOf env) as [[r o] t]. cbv zeta in Hs.
  eexists. split; [exact Hs|]. cbn [pitchScore].
  rewrite (pitchOf_curve rd _ f0 refPitch Hidx Hf0 Href).
  pose proof (pitchCurve_range f0 refPitch Href) as Hrange.
  assert (Hzero : refPitch <= 2 * Qabs (f0 - refPitch) ->
                  pitchCurve f0 refPitch * 100 == 0).
  { intro H. rewrite (pitchCurve_zero f0 refPitch Href H). lra. }
  repeat split.
  - unfold pitchCurve.
    setoid_replace (Qabs (f0 - refPitch) / refPitch * 2)
      with (2 * (Qabs (f0 - refPitch) / refPitch)) by ring.
    ring.
  - lra.
  - lra.
  - intro H. rewrite (pitchCurve_exact f0 refPitch Href H). lra.
  - intro H. rewrite (pitchCurve_linear f0 refPitch Href H). field. lra.
  - exact Hzero.
  - intro H. apply Hzero.
    setoid_replace (f0 - refPitch) with refPitch by lra.
    rewrite Qabs_pos; lra.
Qed.

Lemma pitch_score_relative_error_witness :
  exists s,
    scores (calculateScoringMetrics plainEnv 440 (1 # 4) 0.8) = Some s /\
    pitchScore s == 100 * Qmax 0 (1 - 2 * (Qabs (440 - 220) / 220)) /\
    (0 <= pitchScore s <= 100) /\
    (440 == 220 -> pitchScore s == 100) /\
    (2 * Qabs (440 - 220) <= 220 ->
     pitchScore s == 100 - 200 * Qabs (440 - 220) / 220) /\
    (220 <= 2 * Qabs (440 - 220) -> pitchScore s == 0) /\
    (440 == 2 * 220 -> pitchScore s == 0).
Proof.
  apply (pitch_score_relative_error plainEnv oneNote 440 (1 # 4) 0.8 220);
    reflexivity.
Defined.

(** C2 as stated fails.  Against a reference of 220 Hz, a detected 440 Hz is
    exactly one octave (1200 cents) off and is not forgiven: it scores 0, where
    the unshifted 220 Hz scores 100.  A detected 221 Hz, less than 10 cents off
    (the ratio 221/220 to the power 120 stays below 2), scores below 100.  And
    a detected 246.95 Hz, a little more than 200 cents off (the ratio 1.1225 to
    the power 6 exceeds 2), still scores 75.5, above 70. *)
Lemma cents_curve_not_followed :
  let score f0 :=
    pitchScore (scoresOf (calculateScoringMetrics plainEnv f0 (1 # 4) 0.8)) in
  440 == 2 * 220 /\ score 440 == 0 /\ score 220 == 100 /\
  (221 ^ 120 <= 2 * 220 ^ 120)%Z /\ score 221 == 1090 # 11 /\
  ~ score 221 == 100 /\
  246.95 == 1.1225 * 220 /\ (2 * 10000 ^ 6 <= 11225 ^ 6)%Z /\
  score 246.95 == 75.5 /\ ~ score 246.95 < 70.
Proof.
  vm_compute. repeat split; try reflexivity; discriminate.
Qed.

(** ** The beat test and the combo counter *)

(** No position within a beat interval is at least 0.8 and at most 0.2. *)
Lemma on_beat_test_unsatisfiable (beatPosition : Q) :
  JS.ge beatPosition (1 - 0.2) && JS.le beatPosition 0.2 = false.
Proof.
  destruct (ge_spec beatPosition (1 - 0.2)); [|reflexivity].
  destruct (le_spec beatPosition 0.2); [|reflexivity].
  exfalso. lra.
Qed.

Lemma rhythmOf_onBeat (env : ScorerEnv) : snd (fst (rhythmOf env)) = false.
Proof.
  unfold rhythmOf.
  destruct (0 <? length (beats env))%nat; [|reflexivity].
  destruct (JS.find _ _) as [nextBeat|]; [|reflexivity].
  destruct (JS.filter_pop _ _) as [prevBeat|]; [|reflexivity].
  destruct (JS.truthy nextBeat && JS.truthy prevBeat); [|reflexivity].
  now rewrite on_beat_test_unsatisfiable.
Qed.

(** C4: whatever frame [calculateScoringMetrics] evaluates, in whatever state,
    the [onBeat] flag of a scored result is false, since the beat test asks
    for a position that is both at least 0.8 and at most 0.2; and so the
    [combo] of the result is 0.  (A result without score fields, returned when
    no reference is loaded, has neither field.) *)
Theorem on_beat_never_true
  (env : ScorerEnv) (f0 energy confidence : Q) (s : Scores) :
  scores (calculateScoringMetrics env f0 energy confidence) = Some s ->
  onBeat s = false /\ combo s = 0.
Proof.
  pose proof (rhythmOf_onBeat env) as Hbeat.
  scored_result r o t. cbn [fst snd] in Hbeat. subst o.
  split; reflexivity.
Qed.

Lemma on_beat_never_true_witness :
  let s := scoresOf (calculateScoringMetrics steadyEnv 220 (1 # 2) 0.8) in
  onBeat s = false /\ combo s = 0.
Proof.
  exact (on_beat_never_true steadyEnv 220 (1 # 2) 0.8 _ eq_refl).
Defined.




(** Six frames on the beat in a row would bring the counter from 0 to 6, and
    the popup shows on the sixth only. *)
Example popup_on_the_sixth :
  let counters :=
    List.fold_left
      (fun cs _ => match cs with
                   | c :: _ =>
                       comboOf true (mkStats 0 0 0 true c 0 0 0 0 0 0) :: cs
                   | [] => []
                   end)
      (List.seq 0 6) [0] in
  List.map Qred counters = [6; 5; 4; 3; 2; 1; 0] /\
  List.map (fun c => comboPopup (mkStats 0 0 0 true c 0 0 0 0 0 0)) counters
  = [true; false; false; false; false; false; false].
Proof. vm_compute. split; reflexivity. Qed.


(** ** The energy score *)

Lemma energyOf_cap (energy : Q) : energyOf energy <= 1.
Proof.
  unfold energyOf. pose proof (Q.le_min_r (energy / 0.5) 1.0). lra.
Qed.

Lemma energyOf_loud (energy : Q) : 0.5 <= energy -> energyOf energy == 1.
Proof.
  intro H. unfold energyOf.
  assert (Hd : 1.0 <= energy / 0.5) by (apply Qle_shift_div_l; lra).
  rewrite (Q.min_r _ _ Hd). lra.
Qed.

Lemma energyOf_quiet (energy : Q) : energy <= 0.5 -> energyOf energy == 2 * energy.
Proof.
  intro H. unfold energyOf.
  assert (Hd : energy / 0.5 == 2 * energy) by (field; lra).
  rewrite Hd. apply Q.min_l. lra.
Qed.

Lemma scored_energy (env : ScorerEnv) (f0 energy confidence : Q) (s : Scores) :
  scores (calculateScoringMetrics env f0 energy confidence) = Some s ->
  energyScore s = energyOf energy * 100.
Proof.
  scored_result r o t. reflexivity.
Qed.

(** C5, amended: on every scored frame the energy score compares the detected
    loudness with the fixed level 0.5, not with a loudness of the reference:
    it is [energy / 0.5] clamped to the maximum 1.0, returned on the scale
    0..100.  It never exceeds 100 and is 100 from a loudness of 0.5 on,
    however far above; at or below 0.5 it is proportional to the loudness. *)
Theorem energy_score_fixed_level
  (env : ScorerEnv) (rd : ReferenceData) (f0 energy confidence : Q) :
  referenceData env = Some rd ->
  scoringEnabled env = true ->
  exists s,
    scores (calculateScoringMetrics env f0 energy confidence) = Some s /\
    energyScore s == 100 * Qmin (energy / 0.5) 1 /\
    energyScore s <= 100 /\
    (0.5 <= energy -> energyScore s == 100) /\
    (energy <= 0.5 -> energyScore s == 200 * energy).
Proof.
  intros Hrd Hen.
  pose proof (scored_metrics env rd f0 energy confidence Hrd Hen) as Hs.
  destruct (rhythmOf env) as [[r o] t]. cbv zeta in Hs.
  eexists. split; [exact Hs|]. cbn [energyScore].
  pose proof (energyOf_cap energy) as Hcap.
  repeat split.
  - unfold energyOf.
    assert (Hone : Qmin (energy / 0.5) 1.0 == Qmin (energy / 0.5) 1)
      by (apply Q.min_compat; reflexivity).
    rewrite Hone. ring.
  - lra.
  - intro H. rewrite (energyOf_loud energy H). lra.
  - intro H. rewrite (energyOf_quiet energy H). lra.
Qed.

Lemma energy_score_fixed_level_witness :
  exists s,
    scores (calculateScoringMetrics plainEnv 220 7 0.8) = Some s /\
    energyScore s == 100 * Qmin (7 / 0.5) 1 /\
    energyScore s <= 100 /\
    (0.5 <= 7 -> energyScore s == 100) /\
    (7 <= 0.5 -> energyScore s == 200 * 7).
Proof.
  apply (energy_score_fixed_level plainEnv oneNote 220 7 0.8); reflexivity.
Defined.

(** C5 as stated fails: no reference loudness enters the energy score.  The
    same detected loudness gets the same energy score under two different
    references and times, and there are no two scorer states at all, with
    whatever reference data, time and statistics, under which one detected
    loudness gets two different energy scores.  Nor is there a tolerance below
    the cap: each doubling of the loudness (6 dB) doubles the score. *)
Lemma energy_score_ignores_reference :
  let score env energy :=
    energyScore (scoresOf (calculateScoringMetrics env 220 energy 0.8)) in
  refPitchHz oneNote <> refPitchHz steadyNote /\
  score plainEnv (1 # 10) == 20 /\ score steadyEnv (1 # 10) == 20 /\
  score plainEnv (2 # 10) == 40 /\ score plainEnv (4 # 10) == 80 /\
  ~ (exists (env1 env2 : ScorerEnv) (f1 f2 energy c1 c2 : Q) (s1 s2 : Scores),
        scores (calculateScoringMetrics env1 f1 energy c1) = Some s1 /\
        scores (calculateScoringMetrics env2 f2 energy c2) = Some s2 /\
        ~ energyScore s1 == energyScore s2).
Proof.
  cbv zeta. repeat (split; [vm_compute; (discriminate || reflexivity)|]).
  intros (env1 & env2 & f1 & f2 & energy & c1 & c2 & s1 & s2 & H1 & H2 & Hne).
  apply Hne. rewrite (scored_energy _ _ _ _ _ H1), (scored_energy _ _ _ _ _ H2).
  reflexivity.
Qed.

(** ** Frames and the stop *)


(** A frame message is appended to the trace whatever the session flags are. *)
Lemma handleAudioData_appends
  (rd : option ReferenceData) (h : Hud) (f0 energy confidence : Q) :
  let h' := fst (handleAudioData rd h (Frame f0 energy confidence)) in
  sessionData h' =
    sessionData h ++
    [mkFrameData (hud_currentTime h) f0
       (calculateScoringMetrics (scorerEnv rd h) f0 energy confidence)] /\
  isRecording h' = isRecording h /\
  sessionStarted h' = sessionStarted h.
Proof. repeat split. Qed.









(** ** The final results *)

(** The average over no frames is [0 / 0]. *)
Lemma average_empty (field : FrameData -> jsnum) : average field [] = None.
Proof. reflexivity. Qed.

Lemma sum_defined (field : FrameData -> jsnum) (data : list FrameData) :
  Forall (fun f => field f <> None) data ->
  forall acc : Q,
    exists q, List.fold_left (fun sum f => num_add sum (field f)) data (Some acc)
              = Some q.
Proof.
  induction 1 as [|f data Hf _ IH]; intro acc.
  - now exists acc.
  - cbn [fold_left]. destruct (field f) as [v|]; [|contradiction].
    cbn [num_add]. apply IH.
Qed.

Lemma average_defined (field : FrameData -> jsnum) (data : list FrameData) :
  data <> [] ->
  Forall (fun f => field f <> None) data ->
  exists q, average field data = Some q.
Proof.
  intros Hne Hall. unfold average.
  destruct (sum_defined field data Hall 0) as [s ->].
  destruct data as [|f data]; [contradiction|].
  cbn [length Nat.eqb]. eauto.
Qed.

Lemma score_field_defined (g : Scores -> Q) (data : list FrameData) :
  Forall scored data -> Forall (fun f => score_field g f <> None) data.
Proof.
  apply Forall_impl. intros f Hf. unfold score_field, scored in *.
  now destruct (scores (metrics f)).
Qed.

Lemma phraseResult_numeric (data : list FrameData) (index : nat) (phrase : Phrase) :
  Forall scored data ->
  Forall phraseIsNumeric (phraseResult data index phrase).
Proof.
  intro Hall. unfold phraseResult.
  set (phraseData := List.filter _ data).
  destruct (Nat.ltb_spec 0 (length phraseData)) as [Hpos | _]; [|constructor].
  assert (Hne : phraseData <> []) by (destruct phraseData; [cbn in Hpos; lia | discriminate]).
  assert (Hsub : Forall scored phraseData).
  { apply Forall_forall. intros f Hin. apply filter_In in Hin as [Hin _].
    revert f Hin. now apply Forall_forall. }
  destruct (average_defined f_pitchScore phraseData Hne (score_field_defined _ _ Hsub)) as [p Hp].
  destruct (average_defined f_rhythmScore phraseData Hne (score_field_defined _ _ Hsub)) as [r Hr].
  destruct (average_defined f_energyScore phraseData Hne (score_field_defined _ _ Hsub)) as [e He].
  constructor; [|constructor].
  unfold phraseIsNumeric. cbn [pr_pitchScore pr_rhythmScore pr_energyScore pr_totalScore].
  rewrite Hp, Hr, He. cbn. repeat split; discriminate.
Qed.

Lemma phraseResults_numeric (data : list FrameData) (ps : list Phrase) (index : nat) :
  Forall scored data ->
  Forall phraseIsNumeric (phraseResults data index ps).
Proof.
  intro Hall. revert index. induction ps as [|phrase ps IH]; intro index.
  - constructor.
  - cbn [phraseResults]. apply Forall_app. split.
    + now apply phraseResult_numeric.
    + apply IH.
Qed.

(** Every average of a published result is taken over at least one frame:
    when all frames of the trace are scored, no published number is [NaN]. *)
Lemma published_results_numeric
  (rd : option ReferenceData) (h : Hud) (r : Results) :
  Forall scored (sessionData h) ->
  calculateFinalResults rd h = Some r ->
  sessionData h <> [] /\
  tot_total (totals r) <> None /\ tot_pitch (totals r) <> None /\
  tot_rhythm (totals r) <> None /\ tot_energy (totals r) <> None /\
  Forall phraseIsNumeric (perPhrase r).
Proof.
  intros Hall. unfold calculateFinalResults.
  destruct (sessionData h) as [|f data] eqn:Hdata; [discriminate|].
  cbn [length Nat.eqb]. intro H. injection H as <-.
  assert (Hne : f :: data <> []) by discriminate.
  cbn [totals tot_total tot_pitch tot_rhythm tot_energy perPhrase].
  destruct (average_defined f_totalScore _ Hne (score_field_defined _ _ Hall)) as [? ->].
  destruct (average_defined f_pitchScore _ Hne (score_field_defined _ _ Hall)) as [? ->].
  destruct (average_defined f_rhythmScore _ Hne (score_field_defined _ _ Hall)) as [? ->].
  destruct (average_defined f_energyScore _ Hne (score_field_defined _ _ Hall)) as [? ->].
  repeat split; try discriminate.
  destruct rd as [ref|]; [|constructor].
  destruct (phrases ref); [|constructor].
  now apply phraseResults_numeric.
Qed.

(** C9: when the session is stopped while the trace is empty,
    [calculateFinalResults] returns at its first line: nothing is computed, the
    session-complete callback is not invoked (the stop has no effect on the
    outside at all) and the trace stays empty.  The averages it would
    otherwise take over the trace are all [0 / 0]: none of them is evaluated. *)
Theorem empty_trace_not_published (rd : option ReferenceData) (h : Hud) :
  sessionData h = [] ->
  calculateFinalResults rd h = None /\
  snd (stopSession rd h) = [] /\
  sessionData (fst (stopSession rd h)) = [] /\
  (forall field : FrameData -> jsnum, average field (sessionData h) = None).
Proof.
  intro Hempty.
  assert (Hnone : calculateFinalResults rd h = None).
  { unfold calculateFinalResults. now rewrite Hempty. }
  unfold stopSession. rewrite Hnone. cbn [fst snd sessionData].
  rewrite Hempty. repeat split.
Qed.

Lemma empty_trace_not_published_witness :
  calculateFinalResults (Some oneNote) initialHud = None /\
  snd (stopSession (Some oneNote) initialHud) = [] /\
  sessionData (fst (stopSession (Some oneNote) initialHud)) = [] /\
  (forall field : FrameData -> jsnum, average field (sessionData initialHud) = None).
Proof.
  exact (empty_trace_not_published (Some oneNote) initialHud eq_refl).
Defined.

(** ** The pitch estimate *)

Import PitchWorklet.


Lemma lagStep_eq (buf : list Q) (bestLag : Z) (best : Q) (lag : Z) :
  lagStep buf (bestLag, best) lag =
    if JS.gt (acf buf lag) best then (lag, acf buf lag) else (bestLag, best).
Proof. reflexivity. Qed.

(** The outer loop: either no lag beats the starting value, or the loop ends
    on a lag of the list whose sum beats the starting value and is not beaten
    by the sum of any lag of the list. *)
Lemma lag_loop (buf : list Q) (ls : list Z) :
  forall (bestLag : Z) (best : Q),
    let st := List.fold_left (lagStep buf) ls (bestLag, best) in
    (st = (bestLag, best) /\ forall lag, In lag ls -> acf buf lag <= best) \/
    (In (fst st) ls /\ snd st = acf buf (fst st) /\ best < snd st /\
     forall lag, In lag ls -> acf buf lag <= snd st).
Proof.
  induction ls as [|l ls IH]; intros bestLag best.
  - left. split; [reflexivity | intros lag []].
  - cbn [fold_left]. rewrite lagStep_eq.
    destruct (gt_spec (acf buf l) best) as [Hgt | Hle].
    + right. destruct (IH l (acf buf l)) as [[Heq Hall] | (Hin & Hsum & Hlt & Hall)].
      * cbv zeta in Heq. rewrite Heq. cbn [fst snd].
        split; [now left|]. split; [reflexivity|]. split; [assumption|].
        intros lag [<- | Hin]; [lra | now apply Hall].
      * split; [now right|]. split; [assumption|]. split; [lra|].
        intros lag [<- | Hin']; [lra | now apply Hall].
    + assert (Hl : acf buf l <= best) by (apply Qnot_lt_le; exact Hle).
      destruct (IH bestLag best) as [[Heq Hall] | (Hin & Hsum & Hlt & Hall)].
      * left. split; [assumption|].
        intros lag [<- | Hin]; [assumption | now apply Hall].
      * right. split; [now right|]. split; [assumption|]. split; [assumption|].
        intros lag [<- | Hin']; [lra | now apply Hall].
Qed.




(** *** Sums *)

Lemma sum_shift (f : nat -> Q) (l : list nat) (a : Q) :
  List.fold_left (fun s i => s + f i) l a ==
  a + List.fold_left (fun s i => s + f i) l 0.
Proof.
  revert a. induction l as [|i l IH]; intro a; cbn [fold_left].
  - ring.
  - rewrite (IH (a + f i)), (IH (0 + f i)). ring.
Qed.

Lemma sum_zero (f : nat -> Q) (l : list nat) :
  (forall i, In i l -> f i == 0) ->
  List.fold_left (fun s i => s + f i) l 0 == 0.
Proof.
  induction l as [|i l IH]; intro H; cbn [fold_left]; [reflexivity|].
  assert (Hi : f i == 0) by (apply H; now left).
  assert (Hl : List.fold_left (fun s i => s + f i) l 0 == 0).
  { apply IH. intros k Hk. apply H. now right. }
  rewrite sum_shift. lra.
Qed.




Lemma confidenceOf_zero : confidenceOf 0 = 0.2.
Proof. reflexivity. Qed.



(** *** The sample loop *)

Section Posting.

Variable sqrt : Q -> Q.
Variable sampleRate : Q.

Lemma store_length (b : list Q) (i : nat) (x : Q) :
  length (store b i x) = length b.
Proof.
  revert i. induction b as [|y b IH]; intro i; [reflexivity|].
  destruct i; cbn [store length]; [reflexivity | now rewrite IH].
Qed.

Lemma sample_eq (p : Processor) (posted : list LiveHUD.Message) (x : Q) :
  sample sqrt sampleRate (p, posted) x =
    let b := store (buf p) (idx p) x in
    if (length b <=? S (idx p))%nat
    then (mkProcessor b 0, posted ++ [frameMessage sqrt sampleRate b])
    else (mkProcessor b (S (idx p)), posted).
Proof. reflexivity. Qed.

Lemma sample_loop (ch : list Q) :
  forall (p : Processor) (posted : list LiveHUD.Message),
    length (buf p) = bufLength ->
    Forall (fun m => exists b, length b = bufLength /\
                               m = frameMessage sqrt sampleRate b) posted ->
    let st := List.fold_left (sample sqrt sampleRate) ch (p, posted) in
    length (buf (fst st)) = bufLength /\
    Forall (fun m => exists b, length b = bufLength /\
                               m = frameMessage sqrt sampleRate b) (snd st).
Proof.
  induction ch as [|x ch IH]; intros p posted Hlen Hposted.
  - split; assumption.
  - cbn [fold_left]. rewrite sample_eq. cbv zeta.
    assert (Hb : length (store (buf p) (idx p) x) = bufLength)
      by (now rewrite store_length).
    destruct (length (store (buf p) (idx p) x) <=? S (idx p))%nat.
    + apply IH; [exact Hb|].
      apply Forall_app. split; [assumption|].
      constructor; [|constructor]. eauto.
    + apply IH; assumption.
Qed.

(** [process] posts a message only for a full buffer of 2048 samples. *)
Lemma process_posts_full_buffers
  (p : Processor) (input : option (list (list Q))) :
  length (buf p) = bufLength ->
  Forall (fun m => exists b, length b = bufLength /\
                             m = frameMessage sqrt sampleRate b)
    (snd (process sqrt sampleRate p input)).
Proof.
  intro Hlen. unfold process.
  destruct input as [[|ch rest]|]; try constructor.
  now apply sample_loop.
Qed.

End Posting.

Example squareWave_480 :
  estimatePitch (squareWave 256) 48000 == 480 /\
  confidenceOf (estimatePitch (squareWave 256) 48000) = 0.8 /\
  estimatePitch (List.repeat 0 256) 48000 == 0.
Proof. vm_compute. repeat split; reflexivity. Qed.


(** ** The echo canceller on a silent reference *)

Import EchoCanceller.

Lemma silent_removelast (h : list Q) : silent h -> silent (List.removelast h).
Proof.
  induction 1 as [|x h Hx Hh IH]; [constructor|].
  cbn [removelast]. destruct h as [|y h]; [constructor|].
  constructor; assumption.
Qed.

Lemma push_silent (r : Q) (h : list Q) : r == 0 -> silent h -> silent (push r h).
Proof.
  intros Hr Hh. unfold push. destruct h as [|x h]; [constructor|].
  constructor; [assumption | now apply silent_removelast].
Qed.

Lemma removelast_length (h : list Q) :
  length (List.removelast h) = pred (length h).
Proof.
  induction h as [|x h IH]; [reflexivity|].
  cbn [removelast]. destruct h as [|y h]; [reflexivity|].
  cbn [length] in *. now rewrite IH.
Qed.

Lemma push_length (r : Q) (h : list Q) : length (push r h) = length h.
Proof.
  unfold push. destruct h as [|x h]; [reflexivity|].
  cbn [length]. now rewrite removelast_length.
Qed.

Lemma dot_silent (w h : list Q) : silent h -> dot w h == 0.
Proof.
  intro Hh. revert w. induction Hh as [|x h Hx _ IH]; intro w.
  - now destruct w.
  - destruct w as [|wi w]; [reflexivity|]. cbn [dot]. rewrite IH, Hx. ring.
Qed.

Lemma power_silent (h : list Q) : silent h -> power h == 0.
Proof.
  unfold power. induction 1 as [|x h Hx _ IH]; cbn [fold_right]; [reflexivity|].
  rewrite IH, Hx. ring.
Qed.

Lemma adapt_silent (k norm : Q) (w h : list Q) :
  ~ norm == 0 ->
  silent h ->
  length w = length h ->
  Forall2 Qeq (List.map (fun '(wi, hi) => wi + k * hi / norm) (List.combine w h)) w.
Proof.
  intros Hnorm Hh. revert w. induction Hh as [|x h Hx _ IH]; intros w Hlen.
  - destruct w; [constructor | discriminate].
  - destruct w as [|wi w]; [discriminate|]. cbn [combine List.map].
    constructor.
    + rewrite Hx. field. assumption.
    + apply IH. now injection Hlen.
Qed.

Lemma update_silent (c : Config) (error : Q) (w h : list Q) :
  0 < epsilon c ->
  silent h ->
  length w = length h ->
  exists w', update c error w h = Some w' /\ Forall2 Qeq w' w.
Proof.
  intros Heps Hh Hlen. unfold update.
  pose proof (power_silent h Hh) as Hp.
  destruct (Qeq_bool (power h + epsilon c) 0) eqn:E.
  { apply Qeq_bool_iff in E. lra. }
  eexists. split; [reflexivity|].
  apply adapt_silent; [|assumption|assumption].
  intro H0. lra.
Qed.

Lemma Forall2_Qeq_length (a b : list Q) : Forall2 Qeq a b -> length a = length b.
Proof. induction 1; cbn; congruence. Qed.

Lemma Forall2_Qeq_trans (a b c : list Q) :
  Forall2 Qeq a b -> Forall2 Qeq b c -> Forall2 Qeq a c.
Proof.
  intro H. revert c. induction H as [|x y a b Hxy _ IH]; intros c Hbc.
  - inversion Hbc. constructor.
  - inversion Hbc as [|y' z b' c' Hyz Hrest]; subst.
    constructor; [now rewrite Hxy | now apply IH].
Qed.

Lemma Forall2_Qeq_refl (a : list Q) : Forall2 Qeq a a.
Proof. induction a; constructor; [reflexivity | assumption]. Qed.

(** One sample against a silent reference. *)
Lemma cancel_silent (c : Config) (st : State) (mic ref : Q) :
  0 < epsilon c ->
  silent (history st) ->
  length (weights st) = length (history st) ->
  ref == 0 ->
  exists st' out,
    cancel c st mic ref = Some (st', out) /\
    out == mic /\
    Forall2 Qeq (weights st') (weights st) /\
    silent (history st') /\
    length (weights st') = length (history st').
Proof.
  intros Heps Hh Hlen Hr. unfold cancel.
  pose proof (push_silent ref (history st) Hr Hh) as Hh'.
  assert (Hlen' : length (weights st) = length (push ref (history st)))
    by (now rewrite push_length).
  destruct (update_silent c (mic - dot (weights st) (push ref (history st)))
              (weights st) _ Heps Hh' Hlen') as (w' & -> & Hw).
  eexists. eexists. split; [reflexivity|]. cbn [weights history].
  split; [rewrite (dot_silent _ _ Hh'); ring|].
  split; [assumption|]. split; [assumption|].
  now rewrite (Forall2_Qeq_length _ _ Hw).
Qed.

(** C8: started from a state whose reference history is all zero (such as the
    state after a reset, but with any filter weights), and fed a reference
    signal that is all zero, the canceller is defined on every microphone
    sequence, thanks to a positive [epsilon]; it leaves every filter weight at
    its value and outputs the microphone samples unchanged. *)
Theorem silent_reference_passthrough
  (c : Config) (st : State) (io : list (Q * Q)) :
  0 < epsilon c ->
  silent (history st) ->
  length (weights st) = length (history st) ->
  Forall (fun x => snd x == 0) io ->
  exists st' outs,
    cancelAll c st io = Some (st', outs) /\
    Forall2 Qeq (weights st') (weights st) /\
    Forall2 Qeq outs (List.map fst io).
Proof.
  intros Heps Hh Hlen Hio. revert st Hh Hlen.
  induction Hio as [|[mic ref] io Href _ IH]; intros st Hh Hlen.
  - exists st, []. split; [reflexivity|]. split; [apply Forall2_Qeq_refl | constructor].
  - cbn [snd] in Href. cbn [cancelAll].
    destruct (cancel_silent c st mic ref Heps Hh Hlen Href)
      as (st1 & out & -> & Hout & Hw1 & Hh1 & Hlen1).
    destruct (IH st1 Hh1 Hlen1) as (st' & outs & -> & Hw & Houts).
    exists st', (out :: outs). split; [reflexivity|]. split.
    + now apply Forall2_Qeq_trans with (weights st1).
    + cbn [List.map fst]. constructor; assumption.
Qed.

Lemma silent_reference_passthrough_witness :
  let c := mkConfig 4 0.01 (1 # 1000) in
  let io := [(1, 0); (-2, 0); (3 # 4, 0)] in
  exists st' outs,
    cancelAll c (mkState [1 # 2; 0; -1; 2] [0; 0; 0; 0]) io = Some (st', outs) /\
    Forall2 Qeq (weights st') [1 # 2; 0; -1; 2] /\
    Forall2 Qeq outs (List.map fst io).
Proof.
  apply (silent_reference_passthrough (mkConfig 4 0.01 (1 # 1000))
           (mkState [1 # 2; 0; -1; 2] [0; 0; 0; 0])
           [(1, 0); (-2, 0); (3 # 4, 0)]).
  - reflexivity.
  - repeat constructor.
  - reflexivity.
  - repeat constructor.
Defined.

(** Without the [epsilon], a silent reference leaves the update undefined. *)
Lemma unguarded_update_undefined (c : Config) (st : State) (mic ref : Q) :
  epsilon c == 0 ->
  silent (history st) ->
  ref == 0 ->
  cancel c st mic ref = None.
Proof.
  intros Heps Hh Hr. unfold cancel, update.
  pose proof (power_silent _ (push_silent ref (history st) Hr Hh)) as Hp.
  assert (E : Qeq_bool (power (push ref (history st)) + epsilon c) 0 = true).
  { apply Qeq_bool_iff. lra. }
  now rewrite E.
Qed.

(** With a reference that is not silent the filter does adapt. *)
Example filter_adapts :
  match cancel (mkConfig 2 (1 # 2) (1 # 100)) (reset (mkConfig 2 (1 # 2) (1 # 100))) 1 1 with
  | Some (st', out) => out == 1 /\ ~ Forall2 Qeq (weights st') [0; 0]
  | None => False
  end.
Proof.
  vm_compute. split; [reflexivity|].
  intro H. inversion H as [|? ? ? ? Hx]. discriminate Hx.
Qed.

(** ** The upload form *)

Import SongUpload.

(** [includes] is list membership. *)
Lemma includes_In (l : list string) (t : string) :
  includes l t = true <-> In t l.
Proof.
  unfold includes. rewrite existsb_exists. split.
  - intros (x & Hin & Heq). apply String.eqb_eq in Heq. now subst.
  - intro Hin. exists t. split; [assumption | apply String.eqb_refl].
Qed.

(** C10: a selected file whose MIME type is not one of audio/mpeg, audio/wav,
    audio/mp3, audio/x-wav, or whose size exceeds 50 * 1024 * 1024 bytes, is
    rejected by [handleFileSelect] on the spot: among the steps taken there is
    no network request, and the upload state after them is the state before. *)
Theorem invalid_file_rejected_locally
  (reply : Reply) (file : File) (st : UploadState) :
  ~ In (type file) ["audio/mpeg"; "audio/wav"; "audio/mp3"; "audio/x-wav"]%string \/
  (50 * 1024 * 1024 < size file)%Z ->
  let actions := handleFileSelect reply (Some file) in
  List.existsb isRequest actions = false /\
  applyAll st actions = st.
Proof.
  intros Hbad. unfold handleFileSelect.
  destruct (includes allowedTypes (type file)) eqn:Hty; cbn [negb].
  - destruct Hbad as [Hnot | Hbig].
    + exfalso. apply Hnot. now apply includes_In.
    + apply Z.ltb_lt in Hbig. unfold sizeLimit. rewrite Hbig. split; reflexivity.
  - split; reflexivity.
Qed.

Lemma invalid_file_rejected_locally_witness :
  let file := mkFile "audio/wav" (50 * 1024 * 1024 + 1) in
  let actions := handleFileSelect (Ok "t1" "song.wav") (Some file) in
  List.existsb isRequest actions = false /\
  applyAll (mkUploadState false 0 false) actions = mkUploadState false 0 false.
Proof.
  apply (invalid_file_rejected_locally (Ok "t1" "song.wav")
           (mkFile "audio/wav" (50 * 1024 * 1024 + 1))
           (mkUploadState false 0 false)).
  right. reflexivity.
Defined.

(** A file that passes both tests is handed to [uploadFile], which sends it. *)
Lemma valid_file_uploaded (reply : Reply) (file : File) :
  In (type file) allowedTypes ->
  (size file <= sizeLimit)%Z ->
  handleFileSelect reply (Some file) = uploadFile reply file /\
  List.existsb isRequest (uploadFile reply file) = true.
Proof.
  intros Hty Hsz. unfold handleFileSelect.
  apply includes_In in Hty. rewrite Hty. cbn [negb].
  destruct (Z.ltb_spec sizeLimit (size file)); [lia|].
  split; [reflexivity|]. now destruct reply.
Qed.

(* ------------------------------------------------------------------------- *)
(** * Further properties of the code *)

Import HudCanvas.
Import SongDrop.

(** ** More on the rhythm block *)

Lemma truthy_spec (x : Q) : reflect (~ x == 0) (JS.truthy x).
Proof.
  unfold JS.truthy. destruct (Qeq_bool x 0) eqn:E; constructor.
  - intro H. apply H. now apply Qeq_bool_iff.
  - now apply Qeq_bool_neq.
Qed.

Lemma find_beats_nonempty (p : Q -> bool) (l : list Q) (x : Q) :
  JS.find p l = Some x -> (0 <? length l)%nat = true.
Proof. destruct l; [discriminate | reflexivity]. Qed.

(** The rhythm block between two beats it accepts. *)
Lemma rhythmOf_between (env : ScorerEnv) (nextBeat prevBeat : Q) :
  JS.find (fun beat => JS.gt beat (currentTime env)) (beats env) = Some nextBeat ->
  JS.filter_pop (fun beat => JS.le beat (currentTime env)) (beats env)
    = Some prevBeat ->
  ~ nextBeat == 0 -> ~ prevBeat == 0 ->
  rhythmOf env =
    let beatPosition := (currentTime env - prevBeat) / (nextBeat - prevBeat) in
    let timingErr := Qmin (Qabs (beatPosition - 0.5)) 0.5 in
    (Qmax 0 (1 - timingErr * 2), false, timingErr).
Proof.
  intros Hnext Hprev Hn Hp. unfold rhythmOf.
  rewrite (find_beats_nonempty _ _ _ Hnext), Hnext, Hprev.
  destruct (truthy_spec nextBeat); [|contradiction].
  destruct (truthy_spec prevBeat); [|contradiction].
  cbn [andb]. now rewrite on_beat_test_unsatisfiable.
Qed.

Lemma beat_position_range (env : ScorerEnv) (nextBeat prevBeat : Q) :
  JS.find (fun beat => JS.gt beat (currentTime env)) (beats env) = Some nextBeat ->
  JS.filter_pop (fun beat => JS.le beat (currentTime env)) (beats env)
    = Some prevBeat ->
  0 <= (currentTime env - prevBeat) / (nextBeat - prevBeat) < 1.
Proof.
  intros Hnext Hprev.
  pose proof (beat_interval_positive env _ _ Hnext Hprev) as Hpos.
  apply List.find_some in Hnext as [_ Hn].
  apply filter_pop_some in Hprev as [_ Hp].
  destruct (gt_spec nextBeat (currentTime env)); [|discriminate].
  destruct (le_spec prevBeat (currentTime env)); [|discriminate].
  split.
  - apply Qle_shift_div_l; [assumption | lra].
  - apply Qlt_shift_div_r; [assumption | lra].
Qed.

(** X1: between a previous beat after time 0 and a next beat, the rhythm score
    of a scored frame depends on the position within the beat interval alone:
    it is 100 half-way between the two beats, falls linearly to both sides and
    is 0 on the previous beat itself; the timing error is the distance from
    the half-way point, in percent of the interval. *)
Theorem rhythm_peaks_between_beats
  (env : ScorerEnv) (rd : ReferenceData) (f0 energy confidence : Q)
  (nextBeat prevBeat : Q) :
  referenceData env = Some rd ->
  scoringEnabled env = true ->
  JS.find (fun beat => JS.gt beat (currentTime env)) (beats env) = Some nextBeat ->
  JS.filter_pop (fun beat => JS.le beat (currentTime env)) (beats env)
    = Some prevBeat ->
  0 < prevBeat ->
  let beatPosition := (currentTime env - prevBeat) / (nextBeat - prevBeat) in
  exists s,
    scores (calculateScoringMetrics env f0 energy confidence) = Some s /\
    0 <= beatPosition < 1 /\
    rhythmScore s == 100 - 200 * Qabs (beatPosition - (1 # 2)) /\
    timingErr s == 100 * Qabs (beatPosition - (1 # 2)) /\
    (currentTime env == prevBeat -> rhythmScore s == 0) /\
    (beatPosition == 1 # 2 -> rhythmScore s == 100).
Proof.
  intros Hrd Hen Hnext Hprev Hppos bp.
  pose proof (beat_position_range env _ _ Hnext Hprev) as Hbp. fold bp in Hbp.
  pose proof (beat_interval_positive env _ _ Hnext Hprev) as Hint.
  assert (Hn0 : ~ nextBeat == 0) by (intro H0; lra).
  assert (Hp0 : ~ prevBeat == 0) by (intro H0; lra).
  pose proof (scored_metrics env rd f0 energy confidence Hrd Hen) as Hs.
  rewrite (rhythmOf_between env _ _ Hnext Hprev Hn0 Hp0) in Hs.
  cbv zeta in Hs. fold bp in Hs.
  eexists. split; [exact Hs|]. cbn [rhythmScore timingErr].
  split; [exact Hbp|].
  assert (Habs : Qabs (bp - 0.5) <= 0.5).
  { apply Qabs_case; intro; lra. }
  assert (Hhalf : Qabs (bp - 0.5) == Qabs (bp - (1 # 2))).
  { apply Qabs_wd. lra. }
  assert (Hmin : Qmin (Qabs (bp - 0.5)) 0.5 == Qabs (bp - (1 # 2))).
  { rewrite <- Hhalf. now apply Q.min_l. }
  assert (Hmax : Qmax 0 (1 - Qmin (Qabs (bp - 0.5)) 0.5 * 2)
                 == 1 - 2 * Qabs (bp - (1 # 2))).
  { rewrite Q.max_r; lra. }
  rewrite Hmax, Hmin.
  split; [ring|]. split; [ring|]. split.
  - intro Heq. assert (Hz : bp == 0).
    { unfold bp. setoid_replace (currentTime env - prevBeat) with 0 by lra.
      field. lra. }
    rewrite Hz. cbn. reflexivity.
  - intro Heq. rewrite Heq. cbn. reflexivity.
Qed.

Lemma rhythm_peaks_between_beats_witness :
  let beatPosition := (currentTime midBeatEnv - 0.01) / (0.03 - 0.01) in
  exists s,
    scores (calculateScoringMetrics midBeatEnv 220 (1 # 2) 0.8) = Some s /\
    0 <= beatPosition < 1 /\
    rhythmScore s == 100 - 200 * Qabs (beatPosition - (1 # 2)) /\
    timingErr s == 100 * Qabs (beatPosition - (1 # 2)) /\
    (currentTime midBeatEnv == 0.01 -> rhythmScore s == 0) /\
    (beatPosition == 1 # 2 -> rhythmScore s == 100).
Proof.
  apply (rhythm_peaks_between_beats midBeatEnv steadyNote 220 (1 # 2) 0.8
           0.03 0.01); reflexivity.
Defined.

Lemma find_none_all {A : Type} (p : A -> bool) (l : list A) :
  (forall x, In x l -> p x = false) -> JS.find p l = None.
Proof.
  intro H. unfold JS.find. induction l as [|x l IH]; [reflexivity|].
  cbn [List.find]. rewrite (H x) by now left. apply IH. intros y Hy. apply H. now right.
Qed.

Lemma filter_pop_none_all {A : Type} (p : A -> bool) (l : list A) :
  (forall x, In x l -> p x = false) -> JS.filter_pop p l = None.
Proof.
  intro H. unfold JS.filter_pop.
  assert (E : List.filter p l = []).
  { induction l as [|x l IH]; [reflexivity|]. cbn [List.filter].
    rewrite (H x) by now left. apply IH. intros y Hy. apply H. now right. }
  now rewrite E.
Qed.

(** The rhythm block gives nothing when a beat is missing on either side. *)
Lemma rhythmOf_nothing (env : ScorerEnv) :
  (forall beat, In beat (beats env) -> beat <= currentTime env) \/
  (forall beat, In beat (beats env) -> currentTime env < beat) \/
  (exists prevBeat,
     JS.filter_pop (fun beat => JS.le beat (currentTime env)) (beats env)
       = Some prevBeat /\ prevBeat == 0) ->
  rhythmOf env = (0, false, 0).
Proof.
  intros [Hpast | [Hfuture | (prevBeat & Hprev & Hzero)]]; unfold rhythmOf.
  - rewrite find_none_all.
    + now destruct (0 <? length (beats env))%nat.
    + intros b Hb. destruct (gt_spec b (currentTime env)); [|reflexivity].
      specialize (Hpast b Hb). lra.
  - rewrite (filter_pop_none_all (fun beat => JS.le beat (currentTime env))).
    + destruct (0 <? length (beats env))%nat; [|reflexivity].
      now destruct (JS.find _ _).
    + intros b Hb. destruct (le_spec b (currentTime env)); [|reflexivity].
      specialize (Hfuture b Hb). lra.
  - rewrite Hprev.
    destruct (0 <? length (beats env))%nat; [|reflexivity].
    destruct (JS.find _ _) as [nextBeat|]; [|reflexivity].
    destruct (truthy_spec prevBeat); [contradiction|].
    now rewrite andb_false_r.
Qed.

(** X2: a scored frame gets the rhythm score 0 and the timing error 0 when all
    beats are at or before the current time, when all beats are after it (in
    particular when there are no beats), or when the previous beat is the beat
    at time 0, which the truthiness test takes for a missing one.  The
    combined score is then made of pitch, energy and motion only. *)
Theorem rhythm_needs_beats_on_both_sides
  (env : ScorerEnv) (rd : ReferenceData) (f0 energy confidence : Q) :
  referenceData env = Some rd ->
  scoringEnabled env = true ->
  (forall beat, In beat (beats env) -> beat <= currentTime env) \/
  (forall beat, In beat (beats env) -> currentTime env < beat) \/
  (exists prevBeat,
     JS.filter_pop (fun beat => JS.le beat (currentTime env)) (beats env)
       = Some prevBeat /\ prevBeat == 0) ->
  exists s,
    scores (calculateScoringMetrics env f0 energy confidence) = Some s /\
    rhythmScore s == 0 /\ timingErr s == 0 /\ onBeat s = false /\
    totalScore s ==
      0.6 * pitchScore s + 0.1 * energyScore s + 5 * st_motionScore (stats env).
Proof.
  intros Hrd Hen Hcase.
  pose proof (scored_metrics env rd f0 energy confidence Hrd Hen) as Hs.
  rewrite (rhythmOf_nothing env Hcase) in Hs. cbv zeta in Hs.
  eexists. split; [exact Hs|].
  cbn [rhythmScore timingErr onBeat totalScore pitchScore energyScore].
  rewrite or_num_zero. repeat split; try reflexivity; lra.
Qed.

Lemma rhythm_needs_beats_on_both_sides_witness :
  exists s,
    scores (calculateScoringMetrics plainEnv 220 (1 # 4) 0.8) = Some s /\
    rhythmScore s == 0 /\ timingErr s == 0 /\ onBeat s = false /\
    totalScore s ==
      0.6 * pitchScore s + 0.1 * energyScore s + 5 * st_motionScore (stats plainEnv).
Proof.
  apply (rhythm_needs_beats_on_both_sides plainEnv oneNote 220 (1 # 4) 0.8);
    try reflexivity.
  left. intros beat [].
Defined.

(** ** More on the pitch block *)

Lemma pitchOf_range (rd : ReferenceData) (t f0 : Q) : 0 <= pitchOf rd t f0 <= 1.
Proof.
  unfold pitchOf.
  destruct (_ && _); [|lra].
  destruct (JS.index _ _) as [refPitch|]; [|lra].
  destruct (gt_spec refPitch 0) as [Hpos|]; [|lra].
  now apply pitchCurve_range.
Qed.

Lemma pitchOf_silent (rd : ReferenceData) (t f0 : Q) :
  f0 <= 0 \/
  (frameIndexOf rd t < 0)%Z \/
  (Z.of_nat (length (refPitchHz rd)) <= frameIndexOf rd t)%Z \/
  (exists refPitch,
     JS.index (refPitchHz rd) (frameIndexOf rd t) = Some refPitch /\
     refPitch <= 0) ->
  pitchOf rd t f0 = 0.
Proof.
  unfold pitchOf. intros [Hf | [Hneg | [Hend | (refPitch & Hidx & Href)]]].
  - destruct (gt_spec f0 0); [lra|]. now rewrite andb_false_r.
  - destruct (_ && _); [|reflexivity].
    unfold JS.index. apply Z.ltb_lt in Hneg. now rewrite Hneg.
  - apply Z.ltb_ge in Hend. now rewrite Hend.
  - destruct (_ && _); [|reflexivity]. rewrite Hidx.
    destruct (gt_spec refPitch 0); [lra | reflexivity].
Qed.

(** X3: the pitch score of a scored frame is 0 when the detected pitch is not
    positive (silence), when the frame index falls outside the reference pitch
    track, or when the reference pitch at the index is not positive. *)
Theorem no_pitch_score_without_both_pitches
  (env : ScorerEnv) (rd : ReferenceData) (f0 energy confidence : Q) :
  referenceData env = Some rd ->
  scoringEnabled env = true ->
  f0 <= 0 \/
  (frameIndexOf rd (currentTime env) < 0)%Z \/
  (Z.of_nat (length (refPitchHz rd)) <= frameIndexOf rd (currentTime env))%Z \/
  (exists refPitch,
     JS.index (refPitchHz rd) (frameIndexOf rd (currentTime env)) = Some refPitch /\
     refPitch <= 0) ->
  exists s,
    scores (calculateScoringMetrics env f0 energy confidence) = Some s /\
    pitchScore s == 0.
Proof.
  intros Hrd Hen Hcase.
  pose proof (scored_metrics env rd f0 energy confidence Hrd Hen) as Hs.
  destruct (rhythmOf env) as [[r o] t]. cbv zeta in Hs.
  eexists. split; [exact Hs|]. cbn [pitchScore].
  rewrite (pitchOf_silent rd _ f0 Hcase). reflexivity.
Qed.

Lemma no_pitch_score_without_both_pitches_witness :
  exists s,
    scores (calculateScoringMetrics plainEnv 0 (1 # 4) 0.2) = Some s /\
    pitchScore s == 0.
Proof.
  apply (no_pitch_score_without_both_pitches plainEnv oneNote 0 (1 # 4) 0.2);
    try reflexivity.
  left. discriminate.
Defined.

(** ** The range of the scores *)

Lemma rhythmOf_range (env : ScorerEnv) :
  let '(rhythmScore, _, timingErr) := rhythmOf env in
  0 <= rhythmScore <= 1 /\ 0 <= timingErr <= 0.5.
Proof.
  unfold rhythmOf.
  destruct (0 <? length (beats env))%nat; [|split; lra].
  destruct (JS.find _ _) as [nextBeat|]; [|split; lra].
  destruct (JS.filter_pop _ _) as [prevBeat|]; [|split; lra].
  destruct (JS.truthy nextBeat && JS.truthy prevBeat); [|split; lra].
  rewrite on_beat_test_unsatisfiable.
  set (bp := (currentTime env - prevBeat) / (nextBeat - prevBeat)).
  pose proof (Qabs_nonneg (bp - 0.5)) as Habs.
  assert (Hte : 0 <= Qmin (Qabs (bp - 0.5)) 0.5 <= 0.5).
  { split; [apply Q.min_glb; lra | apply Q.le_min_r]. }
  split; [|exact Hte].
  destruct (Q.max_spec 0 (1 - Qmin (Qabs (bp - 0.5)) 0.5 * 2))
    as [[? ->] | [? ->]]; lra.
Qed.

Lemma energyOf_nonneg (energy : Q) : 0 <= energy -> 0 <= energyOf energy.
Proof.
  intro H. unfold energyOf. apply Q.min_glb; [|lra].
  apply Qle_shift_div_l; lra.
Qed.

(** X4: for a detected loudness that is not negative and a motion score between
    0 and 1, every score of a scored frame lies between 0 and 100 (the timing
    error between 0 and 50), the combined score included; without beats the
    combined score cannot exceed 75. *)
Theorem scores_within_0_100
  (env : ScorerEnv) (rd : ReferenceData) (f0 energy confidence : Q) :
  referenceData env = Some rd ->
  scoringEnabled env = true ->
  0 <= energy ->
  0 <= st_motionScore (stats env) <= 1 ->
  exists s,
    scores (calculateScoringMetrics env f0 energy confidence) = Some s /\
    0 <= pitchScore s <= 100 /\
    0 <= rhythmScore s <= 100 /\
    0 <= energyScore s <= 100 /\
    0 <= timingErr s <= 50 /\
    0 <= totalScore s <= 100 /\
    (beats env = [] -> totalScore s <= 75).
Proof.
  intros Hrd Hen He Hm.
  pose proof (scored_metrics env rd f0 energy confidence Hrd Hen) as Hs.
  pose proof (rhythmOf_range env) as Hr.
  assert (Hnobeats : beats env = [] -> fst (fst (rhythmOf env)) = 0).
  { intro Hb. unfold rhythmOf. now rewrite Hb. }
  destruct (rhythmOf env) as [[r o] t]. cbv zeta in Hs. cbn [fst] in Hnobeats.
  eexists. split; [exact Hs|].
  cbn [pitchScore rhythmScore energyScore timingErr totalScore].
  pose proof (pitchOf_range rd (currentTime env) f0) as Hp.
  pose proof (energyOf_nonneg energy He) as He0.
  pose proof (energyOf_cap energy) as He1.
  rewrite or_num_zero.
  repeat split; try lra.
  intro Hb. rewrite (Hnobeats Hb). lra.
Qed.

Lemma scores_within_0_100_witness :
  exists s,
    scores (calculateScoringMetrics plainEnv 220 (1 # 4) 0.8) = Some s /\
    0 <= pitchScore s <= 100 /\
    0 <= rhythmScore s <= 100 /\
    0 <= energyScore s <= 100 /\
    0 <= timingErr s <= 50 /\
    0 <= totalScore s <= 100 /\
    (beats plainEnv = [] -> totalScore s <= 75).
Proof.
  apply (scores_within_0_100 plainEnv oneNote 220 (1 # 4) 0.8);
    try reflexivity.
  - discriminate.
  - split; discriminate.
Defined.

(** ** The frame index *)




(** ** Invariants of the session *)





(** ** The Combo King badge *)

Lemma comboStreak_snoc (data : list FrameData) (frame : FrameData) :
  comboStreak (data ++ [frame]) =
    let '(maxCombo, currentCombo) := comboStreak data in
    if f_onBeat frame
    then (Nat.max maxCombo (S currentCombo), S currentCombo)
    else (maxCombo, 0%nat).
Proof.
  unfold comboStreak. rewrite fold_left_app. cbn [fold_left].
  now destruct (fold_left _ data _) as [maxCombo currentCombo].
Qed.







(** *** The longest streak *)

Lemma ComboKing_in_badges (data : list FrameData) (n : nat) :
  In (ComboKing n) (calculateBadges data) <->
  (10 <= fst (comboStreak data))%nat /\ n = fst (comboStreak data).
Proof.
  unfold calculateBadges. split.
  - intro Hin.
    apply in_app_or in Hin as [Hin | Hin].
    + destruct (Nat.leb_spec 10 (fst (comboStreak data))); [|destruct Hin].
      destruct Hin as [Hin | []]. injection Hin as <-. now split.
    + exfalso.
      repeat (apply in_app_or in Hin as [Hin | Hin]);
        repeat match type of Hin with
               | In _ (if ?b then _ else _) => destruct b
               | In _ (_ :: _) => destruct Hin as [Hin | Hin]; [discriminate|]
               | In _ [] => destruct Hin
               end.
  - intros [Hge ->]. apply in_or_app. left.
    apply Nat.leb_le in Hge. rewrite Hge. now left.
Qed.

Lemma snoc_or_nil {A : Type} (l : list A) : l = [] \/ exists l' x, l = l' ++ [x].
Proof.
  destruct l as [|a l]; [now left|]. right.
  destruct (@exists_last _ (a :: l)) as (l' & x & ->); [discriminate | eauto].
Qed.

Lemma streak_spec (data : list FrameData) :
  let '(maxCombo, currentCombo) := comboStreak data in
  (currentCombo <= maxCombo)%nat /\
  (exists before run,
     data = before ++ run /\ length run = currentCombo /\ onBeatRun run) /\
  (exists before run after,
     data = before ++ run ++ after /\ length run = maxCombo /\ onBeatRun run) /\
  (forall before run,
     data = before ++ run -> onBeatRun run -> (length run <= currentCombo)%nat) /\
  (forall before run after,
     data = before ++ run ++ after -> onBeatRun run ->
     (length run <= maxCombo)%nat).
Proof.
  induction data as [|f data IH] using rev_ind.
  - cbn. split; [lia|]. split; [exists [], []; repeat split; constructor|].
    split; [exists [], [], []; repeat split; constructor|]. split.
    + intros before run H _. symmetry in H. apply app_eq_nil in H as [_ ->]. cbn. lia.
    + intros before run after H _. symmetry in H.
      apply app_eq_nil in H as [_ H]. apply app_eq_nil in H as [-> _]. cbn. lia.
  - rewrite comboStreak_snoc.
    destruct (comboStreak data) as [m c].
    destruct IH as (Hcm & (tb & tr & Htd & Htl & Hto) & (mb & mr & ma & Hmd & Hml & Hmo)
                    & Htrail & Hany).
    assert (Hany' : forall before run after x,
               data ++ [f] = before ++ run ++ after ++ [x] -> onBeatRun run ->
               (length run <= m)%nat).
    { intros before run after x H Hrun.
      rewrite !app_assoc in H. apply app_inj_tail in H as [H _].
      rewrite <- app_assoc in H. now apply (Hany before run after). }
    destruct (f_onBeat f) eqn:Hf.
    + assert (Htrail' : forall before run,
                 data ++ [f] = before ++ run -> onBeatRun run ->
                 (length run <= S c)%nat).
      { intros before run H Hrun.
        destruct (snoc_or_nil run) as [-> | (run' & x & ->)]; [cbn; lia|].
        rewrite app_assoc in H. apply app_inj_tail in H as [H _].
        apply Forall_app in Hrun as [Hrun' _].
        rewrite length_app. cbn [length].
        specialize (Htrail before run' H Hrun'). lia. }
      split; [lia|]. split.
      { exists tb, (tr ++ [f]). split; [now rewrite Htd, app_assoc|].
        split; [rewrite length_app; cbn; lia|].
        apply Forall_app. split; [assumption | now repeat constructor]. }
      split.
      { destruct (Nat.max_spec m (S c)) as [[Hlt ->] | [Hge ->]].
        - exists tb, (tr ++ [f]), []. rewrite app_nil_r.
          split; [now rewrite Htd, app_assoc|].
          split; [rewrite length_app; cbn; lia|].
          apply Forall_app. split; [assumption | now repeat constructor].
        - exists mb, mr, (ma ++ [f]).
          split; [now rewrite Hmd, !app_assoc | now split]. }
      split; [exact Htrail'|].
      intros before run after H Hrun.
      destruct (snoc_or_nil after) as [-> | (after' & x & ->)].
      * rewrite app_nil_r in H. specialize (Htrail' before run H Hrun). lia.
      * specialize (Hany' before run after' x H Hrun). lia.
    + assert (Htrail' : forall before run,
                 data ++ [f] = before ++ run -> onBeatRun run ->
                 (length run <= 0)%nat).
      { intros before run H Hrun.
        destruct (snoc_or_nil run) as [-> | (run' & x & ->)]; [cbn; lia|].
        rewrite app_assoc in H. apply app_inj_tail in H as [_ <-].
        apply Forall_app in Hrun as [_ Hx].
        inversion Hx as [|? ? Hon _]; subst. congruence. }
      split; [lia|]. split.
      { exists (data ++ [f]), []. rewrite app_nil_r. repeat split. constructor. }
      split.
      { exists mb, mr, (ma ++ [f]).
        split; [now rewrite Hmd, !app_assoc | now split]. }
      split; [exact Htrail'|].
      intros before run after H Hrun.
      destruct (snoc_or_nil after) as [-> | (after' & x & ->)].
      * rewrite app_nil_r in H. specialize (Htrail' before run H Hrun). lia.
      * now apply (Hany' before run after' x).
Qed.

(** X8: [calculateBadges] awards Combo King with the number n exactly when n
    is at least 10 and n is the length of the longest stretch of consecutive
    on-beat frames of the data. *)
Theorem combo_king_needs_ten_in_a_row (data : list FrameData) (n : nat) :
  In (ComboKing n) (calculateBadges data) <->
  (10 <= n)%nat /\
  (exists before run after,
     data = before ++ run ++ after /\ length run = n /\ onBeatRun run) /\
  (forall before run after,
     data = before ++ run ++ after -> onBeatRun run -> (length run <= n)%nat).
Proof.
  rewrite ComboKing_in_badges.
  pose proof (streak_spec data) as Hspec.
  destruct (comboStreak data) as [m c]. cbn [fst].
  destruct Hspec as (_ & _ & Hmax & _ & Hany).
  split.
  - intros [Hge ->]. split; [exact Hge|]. split; [exact Hmax | exact Hany].
  - intros (Hge & (before & run & after & Hd & Hl & Ho) & Hall).
    destruct Hmax as (mb & mr & ma & Hmd & Hml & Hmo).
    assert (n <= m)%nat by (rewrite <- Hl; now apply (Hany before run after)).
    assert (m <= n)%nat by (rewrite <- Hml; now apply (Hall mb mr ma)).
    split; lia.
Qed.

(** ** Averages *)

Lemma sumOf_NaN (field : FrameData -> jsnum) (data : list FrameData) :
  sumOf field data None = None.
Proof. induction data as [|f data IH]; [reflexivity | exact IH]. Qed.

Lemma sumOf_bounds (field : FrameData -> jsnum) (lo hi : Q) (data : list FrameData) :
  Forall (fun f => exists v, field f = Some v /\ lo <= v <= hi) data ->
  forall acc : Q,
    exists s, sumOf field data (Some acc) = Some s /\
              acc + inject_Z (Z.of_nat (length data)) * lo <= s /\
              s <= acc + inject_Z (Z.of_nat (length data)) * hi.
Proof.
  induction 1 as [|f data (v & Hv & Hlo & Hhi) _ IH]; intro acc.
  - exists acc. split; [reflexivity|]. cbn [length].
    change (inject_Z (Z.of_nat 0)) with 0. split; lra.
  - unfold sumOf in *. cbn [fold_left]. rewrite Hv. cbn [num_add].
    destruct (IH (acc + v)) as (s & Hs & H1 & H2).
    exists s. split; [exact Hs|].
    cbn [length]. rewrite Nat2Z.inj_succ, <- Z.add_1_r, inject_Z_plus.
    change (inject_Z 1) with 1. split; lra.
Qed.

Lemma sumOf_unscored (field : FrameData -> jsnum) (data : list FrameData) (acc : jsnum) :
  Exists (fun f => field f = None) data -> sumOf field data acc = None.
Proof.
  intro Hex. revert acc. induction Hex as [f data Hf | f data _ IH]; intro acc.
  - unfold sumOf. cbn [fold_left]. rewrite Hf.
    replace (num_add acc None) with (@None Q) by now destruct acc.
    apply sumOf_NaN.
  - apply IH.
Qed.

Lemma average_sumOf (field : FrameData -> jsnum) (data : list FrameData) :
  average field data =
    match sumOf field data (Some 0) with
    | Some s =>
        if (length data =? 0)%nat then None
        else Some (s / inject_Z (Z.of_nat (length data)))
    | None => None
    end.
Proof. reflexivity. Qed.

(** An average lies between the bounds of what it averages. *)
Lemma average_between (field : FrameData -> jsnum) (lo hi : Q) (data : list FrameData) :
  data <> [] ->
  Forall (fun f => exists v, field f = Some v /\ lo <= v <= hi) data ->
  exists q, average field data = Some q /\ lo <= q <= hi.
Proof.
  intros Hne Hall. rewrite average_sumOf.
  destruct (sumOf_bounds field lo hi data Hall 0) as (s & -> & H1 & H2).
  destruct data as [|f data]; [contradiction|].
  cbn [length Nat.eqb] in *. eexists. split; [reflexivity|].
  set (n := inject_Z (Z.of_nat (S (length data)))) in *.
  assert (Hn : 0 < n).
  { unfold n. change 0 with (inject_Z 0). rewrite <- Zlt_Qlt. lia. }
  split.
  - apply Qle_shift_div_l; [assumption | lra].
  - apply Qle_shift_div_r; [assumption | lra].
Qed.

Lemma sumOf_NaN_inv (field : FrameData -> jsnum) (data : list FrameData) :
  forall acc : Q,
    sumOf field data (Some acc) = None -> Exists (fun f => field f = None) data.
Proof.
  induction data as [|f data IH]; intros acc H; [discriminate|].
  unfold sumOf in H. cbn [fold_left] in H.
  destruct (field f) as [v|] eqn:Hf.
  - right. exact (IH _ H).
  - now left.
Qed.

Lemma average_NaN_iff (g : Scores -> Q) (data : list FrameData) :
  data <> [] ->
  (average (score_field g) data = None <->
   Exists (fun f => scores (metrics f) = None) data).
Proof.
  intro Hne. rewrite average_sumOf. split.
  - intro Hnan.
    destruct (sumOf (score_field g) data (Some 0)) as [s|] eqn:Hs.
    + destruct data; [contradiction | discriminate].
    + apply sumOf_NaN_inv in Hs. revert Hs. apply Exists_impl.
      intros f Hf. unfold score_field in Hf. now destruct (scores (metrics f)).
  - intro Hex. rewrite sumOf_unscored; [reflexivity|].
    revert Hex. apply Exists_impl. intros f Hf. unfold score_field. now rewrite Hf.
Qed.

Lemma average_in_range (g : Scores -> Q) (data : list FrameData) :
  data <> [] ->
  Forall (fun f => exists s, scores (metrics f) = Some s /\ 0 <= g s <= 100) data ->
  numInRange (average (score_field g) data) 0 100.
Proof.
  intros Hne Hall. apply average_between; [assumption|].
  revert Hall. apply Forall_impl. intros f (s & Hs & Hr).
  exists (g s). unfold score_field. rewrite Hs. now split.
Qed.

(** X9: when every frame of the trace has its scores between 0 and 100, so
    have the published totals, and every phrase result (whose own total, made
    of 60% pitch, 25% rhythm and 10% energy, stays below 95). *)
Theorem totals_stay_within_0_100
  (rd : option ReferenceData) (h : Hud) (r : Results) :
  Forall frameInRange (sessionData h) ->
  calculateFinalResults rd h = Some r ->
  numInRange (tot_total (totals r)) 0 100 /\
  numInRange (tot_pitch (totals r)) 0 100 /\
  numInRange (tot_rhythm (totals r)) 0 100 /\
  numInRange (tot_energy (totals r)) 0 100 /\
  Forall (fun p => numInRange (pr_pitchScore p) 0 100 /\
                   numInRange (pr_rhythmScore p) 0 100 /\
                   numInRange (pr_energyScore p) 0 100 /\
                   numInRange (pr_totalScore p) 0 95) (perPhrase r).
Proof.
  intros Hall. unfold calculateFinalResults.
  destruct (sessionData h) as [|f data] eqn:Hdata; [discriminate|].
  cbn [length Nat.eqb]. intro H. injection H as <-.
  assert (Hne : f :: data <> []) by discriminate.
  cbn [totals tot_total tot_pitch tot_rhythm tot_energy perPhrase].
  assert (Hfield : forall (g : Scores -> Q) (l : list FrameData),
             (forall s, 0 <= pitchScore s <= 100 /\ 0 <= rhythmScore s <= 100 /\
                        0 <= energyScore s <= 100 /\ 0 <= totalScore s <= 100 ->
                        0 <= g s <= 100) ->
             Forall frameInRange l ->
             Forall (fun f => exists s, scores (metrics f) = Some s /\
                                        0 <= g s <= 100) l).
  { intros g l Hg. apply Forall_impl. intros x (s & Hs & Hr). exists s. auto. }
  split; [apply average_in_range; [assumption | apply Hfield; [tauto | assumption]]|].
  split; [apply average_in_range; [assumption | apply Hfield; [tauto | assumption]]|].
  split; [apply average_in_range; [assumption | apply Hfield; [tauto | assumption]]|].
  split; [apply average_in_range; [assumption | apply Hfield; [tauto | assumption]]|].
  destruct rd as [ref|]; [|constructor].
  destruct (phrases ref) as [ps|]; [|constructor].
  generalize 0%nat as index. induction ps as [|phrase ps IH]; intro index.
  - constructor.
  - cbn [phraseResults]. apply Forall_app. split; [|apply IH].
    unfold phraseResult. set (phraseData := List.filter _ (f :: data)).
    destruct (Nat.ltb_spec 0 (length phraseData)) as [Hpos|]; [|constructor].
    assert (Hpne : phraseData <> [])
      by (destruct phraseData; [cbn in Hpos; lia | discriminate]).
    assert (Hsub : Forall frameInRange phraseData).
    { apply Forall_forall. intros x Hin. apply filter_In in Hin as [Hin _].
      revert x Hin. now apply Forall_forall. }
    constructor; [|constructor].
    cbn [pr_pitchScore pr_rhythmScore pr_energyScore pr_totalScore].
    destruct (average_in_range pitchScore phraseData Hpne
                (Hfield pitchScore _ ltac:(tauto) Hsub)) as (p & Hp & Hpr).
    destruct (average_in_range rhythmScore phraseData Hpne
                (Hfield rhythmScore _ ltac:(tauto) Hsub)) as (q & Hq & Hqr).
    destruct (average_in_range energyScore phraseData Hpne
                (Hfield energyScore _ ltac:(tauto) Hsub)) as (e & He & Her).
    unfold f_pitchScore, f_rhythmScore, f_energyScore.
    rewrite Hp, Hq, He. cbn [num_scale num_add].
    repeat split; try (eexists; split; [reflexivity | lra]).
Qed.

Lemma totals_stay_within_0_100_witness :
  let r := resultsOf (calculateFinalResults (Some oneNote) oneFrameHud) in
  numInRange (tot_total (totals r)) 0 100 /\
  numInRange (tot_pitch (totals r)) 0 100 /\
  numInRange (tot_rhythm (totals r)) 0 100 /\
  numInRange (tot_energy (totals r)) 0 100 /\
  Forall (fun p => numInRange (pr_pitchScore p) 0 100 /\
                   numInRange (pr_rhythmScore p) 0 100 /\
                   numInRange (pr_energyScore p) 0 100 /\
                   numInRange (pr_totalScore p) 0 95) (perPhrase r).
Proof.
  apply (totals_stay_within_0_100 (Some oneNote) oneFrameHud).
  - constructor; [|constructor]. eexists. split; [reflexivity|].
    vm_compute. repeat split; discriminate.
  - reflexivity.
Defined.

Lemma badge_needs_average (data : list FrameData) :
  (In OnBeatBandit (calculateBadges data) ->
   num_ge (average f_rhythmScore data) 80 = true) /\
  (In MicMelter (calculateBadges data) ->
   num_ge (average f_energy data) 0.3 = true) /\
  (In SmoothOperator (calculateBadges data) ->
   num_ge (average f_pitchScore data) 85 = true).
Proof.
  unfold calculateBadges.
  destruct (10 <=? fst (comboStreak data))%nat;
    destruct (num_ge (average f_rhythmScore data) 80);
    destruct (num_ge (average f_energy data) 0.3);
    destruct (num_ge (average f_pitchScore data) 85);
    cbn [app]; repeat split; trivial; intro Hin;
    repeat (destruct Hin as [Hin | Hin]; [discriminate|]); destruct Hin.
Qed.

(** X10: in a published result, each of the four averaged totals is [NaN]
    exactly when some frame of the trace was recorded without score fields;
    and then neither the On-Beat Bandit nor the Smooth Operator badge is
    awarded. *)
Theorem unscored_frame_makes_totals_NaN
  (rd : option ReferenceData) (h : Hud) (r : Results) :
  calculateFinalResults rd h = Some r ->
  let unscoredFrame :=
    Exists (fun f => scores (metrics f) = None) (sessionData h) in
  (tot_total (totals r) = None <-> unscoredFrame) /\
  (tot_pitch (totals r) = None <-> unscoredFrame) /\
  (tot_rhythm (totals r) = None <-> unscoredFrame) /\
  (tot_energy (totals r) = None <-> unscoredFrame) /\
  (unscoredFrame ->
   ~ In OnBeatBandit (res_badges r) /\ ~ In SmoothOperator (res_badges r)).
Proof.
  unfold calculateFinalResults.
  destruct (sessionData h) as [|f data] eqn:Hdata; [discriminate|].
  cbn [length Nat.eqb]. intro H. injection H as <-.
  assert (Hne : f :: data <> []) by discriminate.
  cbn [totals tot_total tot_pitch tot_rhythm tot_energy res_badges].
  repeat split; try (apply average_NaN_iff; assumption).
  - intros Hin. apply badge_needs_average in Hin.
    apply (average_NaN_iff rhythmScore _ Hne) in H.
    unfold f_rhythmScore in Hin. rewrite H in Hin. discriminate.
  - intros Hin. apply badge_needs_average in Hin.
    apply (average_NaN_iff pitchScore _ Hne) in H.
    unfold f_pitchScore in Hin. rewrite H in Hin. discriminate.
Qed.

Lemma unscored_frame_makes_totals_NaN_witness :
  let r := resultsOf (calculateFinalResults (Some oneNote) oneFrameHud) in
  let unscoredFrame :=
    Exists (fun f => scores (metrics f) = None) (sessionData oneFrameHud) in
  (tot_total (totals r) = None <-> unscoredFrame) /\
  (tot_pitch (totals r) = None <-> unscoredFrame) /\
  (tot_rhythm (totals r) = None <-> unscoredFrame) /\
  (tot_energy (totals r) = None <-> unscoredFrame) /\
  (unscoredFrame ->
   ~ In OnBeatBandit (res_badges r) /\ ~ In SmoothOperator (res_badges r)).
Proof.
  exact (unscored_frame_makes_totals_NaN (Some oneNote) oneFrameHud _ eq_refl).
Defined.

(** ** Phrase results *)

Lemma phraseResult_some (data : list FrameData) (index : nat) (phrase : Phrase) :
  (exists f, In f data /\ inPhrase phrase f) ->
  exists p, phraseResult data index phrase = [p] /\
            pr_phrase p = index /\ pr_start p = ph_start phrase /\
            pr_end p = ph_end phrase.
Proof.
  intros (f & Hin & Hlo & Hhi). unfold phraseResult.
  set (phraseData := List.filter _ data).
  assert (Hf : In f phraseData).
  { apply filter_In. split; [assumption|].
    destruct (ge_spec (time f) (ph_start phrase)); [|contradiction].
    destruct (le_spec (time f) (ph_end phrase)); [reflexivity | contradiction]. }
  destruct phraseData as [|x l]; [destruct Hf|].
  cbn [length Nat.ltb Nat.leb]. eexists. split; [reflexivity|]. repeat split.
Qed.

Lemma phraseResult_none (data : list FrameData) (index : nat) (phrase : Phrase) :
  ~ (exists f, In f data /\ inPhrase phrase f) ->
  phraseResult data index phrase = [].
Proof.
  intro Hno. unfold phraseResult.
  set (phraseData := List.filter _ data).
  destruct phraseData as [|x l] eqn:E; [reflexivity|]. exfalso. apply Hno.
  assert (Hx : In x phraseData) by (rewrite E; now left).
  apply filter_In in Hx as [Hin Hx]. exists x. split; [assumption|].
  apply andb_prop in Hx as [Hlo Hhi].
  destruct (ge_spec (time x) (ph_start phrase)); [|discriminate].
  destruct (le_spec (time x) (ph_end phrase)); [|discriminate].
  now split.
Qed.

Lemma inPhrase_dec (data : list FrameData) (phrase : Phrase) :
  (exists f, In f data /\ inPhrase phrase f) \/
  ~ (exists f, In f data /\ inPhrase phrase f).
Proof.
  destruct (List.existsb (fun f => JS.ge (time f) (ph_start phrase) &&
                                   JS.le (time f) (ph_end phrase)) data) eqn:E.
  - left. apply existsb_exists in E as (f & Hin & Hf). exists f. split; [assumption|].
    apply andb_prop in Hf as [Hlo Hhi].
    destruct (ge_spec (time f) (ph_start phrase)); [|discriminate].
    destruct (le_spec (time f) (ph_end phrase)); [|discriminate].
    now split.
  - right. intros (f & Hin & Hlo & Hhi).
    assert (List.existsb (fun f => JS.ge (time f) (ph_start phrase) &&
                                   JS.le (time f) (ph_end phrase)) data = true).
    { apply existsb_exists. exists f. split; [assumption|].
      destruct (ge_spec (time f) (ph_start phrase)); [|contradiction].
      destruct (le_spec (time f) (ph_end phrase)); [reflexivity | contradiction]. }
    congruence.
Qed.

Lemma phraseResults_spec (data : list FrameData) (ps : list Phrase) :
  forall index : nat,
    let prs := phraseResults data index ps in
    StronglySorted lt (List.map pr_phrase prs) /\
    Forall (fun p => (index <= pr_phrase p)%nat) prs /\
    forall p, In p prs <->
      exists phrase,
        nth_error ps (pr_phrase p - index) = Some phrase /\
        (index <= pr_phrase p)%nat /\
        (exists f, In f data /\ inPhrase phrase f) /\
        phraseResult data (pr_phrase p) phrase = [p].
Proof.
  induction ps as [|phrase ps IH]; intro index.
  - cbn. split; [constructor|]. split; [constructor|].
    intro p. split; [intros [] | intros (ph & H & _)].
    now destruct (pr_phrase p - index)%nat.
  - cbn [phraseResults]. destruct (IH (S index)) as (Hsorted & Hlow & Hin).
    destruct (inPhrase_dec data phrase) as [Hsome | Hnone].
    + destruct (phraseResult_some data index phrase Hsome) as (p0 & Hp0 & Hi0 & _).
      rewrite Hp0. cbn [app List.map]. split; [|split].
      * constructor; [assumption|]. apply Forall_map. rewrite Hi0.
        revert Hlow. apply Forall_impl. intros q Hq. lia.
      * constructor; [lia|]. revert Hlow. apply Forall_impl. intros q Hq. lia.
      * intro p. split.
        -- intros [<- | Hp].
           ++ exists phrase. rewrite Hi0, Nat.sub_diag. cbn [nth_error].
              repeat split; auto.
           ++ apply Hin in Hp as (ph & Hnth & Hle & Hex & Hres).
              exists ph. replace (pr_phrase p - index)%nat
                with (S (pr_phrase p - S index)) by lia.
              cbn [nth_error]. repeat split; auto. lia.
        -- intros (ph & Hnth & Hle & Hex & Hres).
           destruct (Nat.eq_dec (pr_phrase p) index) as [Heq | Hneq].
           ++ left. rewrite Heq, Nat.sub_diag in Hnth. cbn in Hnth.
              injection Hnth as <-. rewrite Heq in Hres. congruence.
           ++ right. apply Hin. exists ph.
              replace (pr_phrase p - index)%nat
                with (S (pr_phrase p - S index)) in Hnth by lia.
              cbn [nth_error] in Hnth. repeat split; auto. lia.
    + rewrite (phraseResult_none data index phrase Hnone). cbn [app].
      split; [assumption|]. split.
      * revert Hlow. apply Forall_impl. intros q Hq. lia.
      * intro p. split.
        -- intro Hp. apply Hin in Hp as (ph & Hnth & Hle & Hex & Hres).
           exists ph. replace (pr_phrase p - index)%nat
             with (S (pr_phrase p - S index)) by lia.
           cbn [nth_error]. repeat split; auto. lia.
        -- intros (ph & Hnth & Hle & Hex & Hres).
           destruct (Nat.eq_dec (pr_phrase p) index) as [Heq | Hneq].
           ++ exfalso. rewrite Heq, Nat.sub_diag in Hnth. cbn in Hnth.
              injection Hnth as <-. contradiction.
           ++ apply Hin. exists ph.
              replace (pr_phrase p - index)%nat
                with (S (pr_phrase p - S index)) in Hnth by lia.
              cbn [nth_error] in Hnth. repeat split; auto. lia.
Qed.

(** X11: the phrase results come in the order of the phrases, each phrase at
    most once; a phrase has a result exactly when some frame of the data lies
    between its start and its end; and a result carries the start and the end
    of the phrase its index names. *)
Theorem phrase_results_follow_the_phrases
  (data : list FrameData) (ps : list Phrase) :
  let prs := phraseResults data 0 ps in
  StronglySorted lt (List.map pr_phrase prs) /\
  (forall i : nat,
     In i (List.map pr_phrase prs) <->
     exists phrase,
       nth_error ps i = Some phrase /\ exists f, In f data /\ inPhrase phrase f) /\
  Forall (fun p => nth_error ps (pr_phrase p)
                   = Some (mkPhrase (pr_start p) (pr_end p))) prs.
Proof.
  destruct (phraseResults_spec data ps 0) as (Hsorted & _ & Hin).
  split; [exact Hsorted|]. split.
  - intro i. rewrite in_map_iff. split.
    + intros (p & <- & Hp). apply Hin in Hp as (ph & Hnth & _ & Hex & _).
      rewrite Nat.sub_0_r in Hnth. eauto.
    + intros (ph & Hnth & Hex).
      destruct (phraseResult_some data i ph Hex) as (p & Hp & Hi & _).
      exists p. split; [assumption|]. apply Hin. exists ph.
      rewrite Hi, Nat.sub_0_r. repeat split; auto. lia.
  - apply Forall_forall. intros p Hp.
    apply Hin in Hp as (ph & Hnth & _ & Hex & Hres).
    rewrite Nat.sub_0_r in Hnth. rewrite Hnth. f_equal.
    destruct (phraseResult_some data (pr_phrase p) ph Hex) as (p' & Hp' & _ & Hs & He).
    assert (p' = p) by congruence. subst p'. rewrite Hs, He. now destruct ph.
Qed.

(** ** More on the pitch estimate *)

Lemma sum_ext (f g : nat -> Q) (k : Q) (l : list nat) :
  (forall i, f i == k * g i) ->
  List.fold_left (fun s i => s + f i) l 0 ==
  k * List.fold_left (fun s i => s + g i) l 0.
Proof.
  intro H. induction l as [|i l IH]; cbn [fold_left]; [ring|].
  rewrite sum_shift, (sum_shift g), IH, (H i). ring.
Qed.

Lemma at_silent (b : list Q) (i : nat) : silent b -> at_ b i == 0.
Proof.
  intro Hs. revert i. induction Hs as [|x b Hx _ IH]; intro i.
  - now destruct i.
  - destruct i; [exact Hx | apply IH].
Qed.

Lemma acf_silent (b : list Q) (lag : Z) : silent b -> acf b lag == 0.
Proof.
  intro Hs. unfold acf. apply sum_zero. intros i _.
  rewrite (at_silent b i Hs). ring.
Qed.

(** X12: for a buffer of zeros, of any length and at any sample rate, the
    estimated pitch is 0 and the confidence posted with it is 0.2. *)
Theorem silence_has_no_pitch (b : list Q) (sr : Q) :
  silent b ->
  estimatePitch b sr = 0 /\ confidenceOf (estimatePitch b sr) = 0.2.
Proof.
  intro Hs.
  assert (H0 : estimatePitch b sr = 0).
  { unfold estimatePitch, searchLag.
    destruct (lag_loop b (lags (minLagOf sr) (maxLagOf sr)) (-1)%Z 0)
      as [[Heq _] | (_ & Hsum & Hpos & _)].
    - cbv zeta in Heq. now rewrite Heq.
    - exfalso. cbv zeta in Hsum, Hpos. rewrite Hsum in Hpos.
      rewrite (acf_silent b _ Hs) in Hpos. lra. }
  split; [exact H0 | now rewrite H0].
Qed.

Lemma silence_has_no_pitch_witness :
  estimatePitch [0; 0; 0; 0; 0; 0; 0; 0] 48000 = 0 /\
  confidenceOf (estimatePitch [0; 0; 0; 0; 0; 0; 0; 0] 48000) = 0.2.
Proof.
  apply (silence_has_no_pitch [0; 0; 0; 0; 0; 0; 0; 0] 48000).
  repeat constructor.
Defined.

(** *** Loudness and polarity *)

Lemma at_scaled (k : Q) (b : list Q) (i : nat) :
  at_ (List.map (Qmult k) b) i == k * at_ b i.
Proof.
  unfold at_. revert i. induction b as [|x b IH]; intro i.
  - destruct i; cbn; ring.
  - destruct i; [reflexivity | apply IH].
Qed.

Lemma acf_scaled (k : Q) (b : list Q) (lag : Z) :
  acf (List.map (Qmult k) b) lag == (k * k) * acf b lag.
Proof.
  unfold acf. rewrite length_map. apply sum_ext. intro i.
  rewrite !at_scaled. ring.
Qed.

Lemma gt_compat (a a' b b' : Q) : a == a' -> b == b' -> JS.gt a b = JS.gt a' b'.
Proof.
  intros Ha Hb. destruct (gt_spec a b), (gt_spec a' b'); trivial; exfalso; lra.
Qed.

Lemma lag_loop_scaled (k : Q) (b : list Q) (ls : list Z) :
  ~ k == 0 ->
  forall (bestLag : Z) (best best' : Q),
    best' == (k * k) * best ->
    fst (List.fold_left (lagStep (List.map (Qmult k) b)) ls (bestLag, best')) =
    fst (List.fold_left (lagStep b) ls (bestLag, best)).
Proof.
  intro Hk.
  assert (Hkk : 0 < k * k).
  { destruct (Qlt_le_dec 0 k) as [Hp | Hn].
    - now apply Qmult_lt_0_compat.
    - assert (k < 0) by (apply Qle_lteq in Hn as [? | ?]; [assumption | contradiction]).
      setoid_replace (k * k) with ((- k) * (- k)) by ring.
      apply Qmult_lt_0_compat; lra. }
  induction ls as [|lag ls IH]; intros bestLag best best' Hb; [reflexivity|].
  cbn [fold_left]. rewrite !lagStep_eq.
  assert (Hgt : JS.gt (acf (List.map (Qmult k) b) lag) best' = JS.gt (acf b lag) best).
  { destruct (gt_spec (acf (List.map (Qmult k) b) lag) best') as [H1 | H1],
             (gt_spec (acf b lag) best) as [H2 | H2]; trivial; exfalso;
      rewrite acf_scaled, Hb in H1.
    - apply H2. apply Qnot_le_lt. intro Hle.
      assert (k * k * acf b lag <= k * k * best)
        by (rewrite !(Qmult_comm (k * k)); apply Qmult_le_compat_r; lra).
      lra.
    - apply H1. rewrite !(Qmult_comm (k * k)). apply Qmult_lt_compat_r; assumption. }
  rewrite Hgt. destruct (JS.gt (acf b lag) best).
  - apply IH. apply acf_scaled.
  - now apply IH.
Qed.

(** X13: in exact arithmetic, scaling every sample of the buffer by the same
    non-zero factor, positive or negative, does not change the estimated
    pitch. *)
Theorem pitch_ignores_loudness (k : Q) (b : list Q) (sr : Q) :
  ~ k == 0 ->
  estimatePitch (List.map (Qmult k) b) sr = estimatePitch b sr.
Proof.
  intro Hk. unfold estimatePitch, searchLag.
  rewrite (lag_loop_scaled k b _ Hk (-1)%Z 0 0) by ring.
  reflexivity.
Qed.

Lemma pitch_ignores_loudness_witness :
  estimatePitch (List.map (Qmult (- (1 # 3))) (squareWave 2048)) 48000
  = estimatePitch (squareWave 2048) 48000.
Proof.
  apply (pitch_ignores_loudness (- (1 # 3)) (squareWave 2048) 48000). discriminate.
Defined.

(** ** More on the sample loop *)

Section Chunks.

Variable sqrt : Q -> Q.
Variable sampleRate : Q.

Lemma sample_loop_posted (ch : list Q) :
  forall (p : Processor) (posted : list LiveHUD.Message),
    List.fold_left (sample sqrt sampleRate) ch (p, posted) =
    (fst (List.fold_left (sample sqrt sampleRate) ch (p, [])),
     posted ++ snd (List.fold_left (sample sqrt sampleRate) ch (p, []))).
Proof.
  induction ch as [|x ch IH]; intros p posted.
  - cbn. now rewrite app_nil_r.
  - cbn [fold_left]. rewrite !sample_eq. cbv zeta.
    destruct (length (store (buf p) (idx p) x) <=? S (idx p))%nat.
    + rewrite (IH _ (posted ++ _)), (IH _ ([] ++ _)). cbn [fst snd app].
      now rewrite <- app_assoc.
    + apply IH.
Qed.

(** X14: it makes no difference how the samples are cut into calls of
    [process]: one call on two chunks in a row ends in the state, and posts the
    messages, of one call per chunk. *)
Theorem process_chunking (p : Processor) (ch1 ch2 : list Q) :
  let r1 := process sqrt sampleRate p (Some [ch1]) in
  let r2 := process sqrt sampleRate (fst r1) (Some [ch2]) in
  process sqrt sampleRate p (Some [ch1 ++ ch2]) = (fst r2, snd r1 ++ snd r2).
Proof.
  cbn [process]. rewrite fold_left_app.
  destruct (List.fold_left (sample sqrt sampleRate) ch1 (p, [])) as [p1 m1].
  cbn [fst snd]. apply sample_loop_posted.
Qed.

Lemma sample_loop_count (n : nat) (ch : list Q) :
  forall (p : Processor) (posted : list LiveHUD.Message),
    length (buf p) = n -> (idx p < n)%nat ->
    let st := List.fold_left (sample sqrt sampleRate) ch (p, posted) in
    length (buf (fst st)) = n /\
    idx (fst st) = ((idx p + length ch) mod n)%nat /\
    length (snd st) = (length posted + (idx p + length ch) / n)%nat.
Proof.
  induction ch as [|x ch IH]; intros p posted Hlen Hidx.
  - cbn [fold_left fst snd length]. rewrite Nat.add_0_r.
    rewrite Nat.mod_small, Nat.div_small by assumption. repeat split; lia.
  - cbn [fold_left]. rewrite sample_eq. cbv zeta.
    assert (Hb : length (store (buf p) (idx p) x) = n) by (now rewrite store_length).
    rewrite Hb. cbn [length].
    destruct (Nat.leb_spec n (S (idx p))) as [Hfull | Hroom].
    + assert (Hn : S (idx p) = n) by lia.
      destruct (IH (mkProcessor (store (buf p) (idx p) x) 0)
                  (posted ++ [frameMessage sqrt sampleRate (store (buf p) (idx p) x)]))
        as (H1 & H2 & H3); [exact Hb | cbn [idx]; lia|].
      cbn [idx Nat.add] in H2, H3. cbv zeta. split; [exact H1|].
      replace (idx p + S (length ch))%nat with (length ch + 1 * n)%nat by lia.
      rewrite Nat.Div0.mod_add, Nat.div_add by lia.
      split; [exact H2|]. rewrite H3, length_app. cbn [length]. lia.
    + destruct (IH (mkProcessor (store (buf p) (idx p) x) (S (idx p))) posted)
        as (H1 & H2 & H3); [exact Hb | cbn [idx]; lia|].
      cbn [idx] in H2, H3. cbv zeta. split; [exact H1|].
      replace (idx p + S (length ch))%nat with (S (idx p) + length ch)%nat by lia.
      split; assumption.
Qed.

(** X15: for a processor with a buffer of 2048 samples and a write index
    inside it, [process] keeps the buffer length, advances the index by the
    number of samples modulo 2048, and posts one message for each time the
    index wraps. *)
Theorem one_message_per_2048_samples (p : Processor) (ch : list Q) :
  length (buf p) = bufLength ->
  (idx p < bufLength)%nat ->
  let r := process sqrt sampleRate p (Some [ch]) in
  length (buf (fst r)) = bufLength /\
  idx (fst r) = ((idx p + length ch) mod bufLength)%nat /\
  length (snd r) = ((idx p + length ch) / bufLength)%nat.
Proof.
  intros Hlen Hidx. cbn [process].
  exact (sample_loop_count bufLength ch p [] Hlen Hidx).
Qed.

Lemma store_at_end (done rest : list Q) (y x : Q) :
  store (done ++ y :: rest) (length done) x = done ++ x :: rest.
Proof.
  induction done as [|d done IH]; [reflexivity|].
  cbn [app length store]. now rewrite IH.
Qed.

Lemma fill_loop (ch : list Q) :
  forall (done rest : list Q) (posted : list LiveHUD.Message),
    ch <> [] -> length rest = length ch ->
    List.fold_left (sample sqrt sampleRate) ch
      (mkProcessor (done ++ rest) (length done), posted) =
    (mkProcessor (done ++ ch) 0,
     posted ++ [frameMessage sqrt sampleRate (done ++ ch)]).
Proof.
  induction ch as [|x ch IH]; intros done rest posted Hne Hlen; [contradiction|].
  destruct rest as [|y rest]; [discriminate|]. cbn [length] in Hlen.
  cbn [fold_left]. rewrite sample_eq. cbn [buf idx]. cbv zeta.
  rewrite store_at_end.
  assert (Hl : length (done ++ x :: rest) = (length done + S (length ch))%nat).
  { rewrite length_app. cbn [length]. lia. }
  rewrite Hl. destruct ch as [|x' ch].
  - destruct rest; [|discriminate].
    assert (E : (length done + S (length (@nil Q)) <=? S (length done))%nat = true)
      by (apply Nat.leb_le; cbn [length]; lia).
    rewrite E. reflexivity.
  - assert (E : (length done + S (length (x' :: ch)) <=? S (length done))%nat = false)
      by (apply Nat.leb_gt; cbn [length]; lia).
    rewrite E.
    replace (done ++ x :: rest) with ((done ++ [x]) ++ rest)
      by (now rewrite <- app_assoc).
    replace (S (length done)) with (length (done ++ [x]))
      by (rewrite length_app; cbn; lia).
    rewrite (IH (done ++ [x]) rest posted); [|discriminate | lia].
    now rewrite <- !app_assoc.
Qed.

(** X16: a processor at index 0 that is given 2048 samples ends with exactly
    these samples in its buffer, at index 0 again, and posts one message,
    computed from these samples. *)
Theorem full_buffer_is_the_last_2048_samples (p : Processor) (ch : list Q) :
  idx p = 0%nat ->
  length (buf p) = bufLength ->
  length ch = bufLength ->
  process sqrt sampleRate p (Some [ch]) =
    (mkProcessor ch 0, [frameMessage sqrt sampleRate ch]).
Proof.
  intros Hidx Hlen Hch. cbn [process].
  destruct p as [b i]. cbn [idx buf] in *. subst i.
  apply (fill_loop ch [] b []).
  - intro H. rewrite H in Hch. discriminate.
  - congruence.
Qed.

End Chunks.

Lemma one_message_per_2048_samples_witness :
  let r := process sqrtLower 48000 newProcessor (Some [squareWave 5000]) in
  length (buf (fst r)) = bufLength /\
  idx (fst r) = ((idx newProcessor + length (squareWave 5000)) mod bufLength)%nat /\
  length (snd r) = ((idx newProcessor + length (squareWave 5000)) / bufLength)%nat.
Proof.
  apply (one_message_per_2048_samples sqrtLower 48000 newProcessor
           (squareWave 5000)).
  - reflexivity.
  - apply Nat.ltb_lt. reflexivity.
Defined.

Lemma full_buffer_is_the_last_2048_samples_witness :
  process sqrtLower 48000 newProcessor (Some [squareWave 2048]) =
    (mkProcessor (squareWave 2048) 0,
     [frameMessage sqrtLower 48000 (squareWave 2048)]).
Proof.
  apply (full_buffer_is_the_last_2048_samples sqrtLower 48000 newProcessor
           (squareWave 2048)); reflexivity.
Defined.

(** ** More on the upload form *)

(** X17: [handleFileSelect] makes a network request exactly when the MIME type
    of the file is one of the four allowed ones and its size is at most
    50 * 1024 * 1024 bytes (a file of exactly that size is sent); it never
    makes more than one request, and the request carries the selected file. *)
Theorem request_iff_file_valid (reply : Reply) (file : File) :
  let actions := handleFileSelect reply (Some file) in
  (List.existsb isRequest actions = true <->
   In (type file) ["audio/mpeg"; "audio/wav"; "audio/mp3"; "audio/x-wav"]%string /\
   (size file <= 50 * 1024 * 1024)%Z) /\
  (List.filter isRequest actions = [] \/
   List.filter isRequest actions = [FetchUpload file]).
Proof.
  cbv zeta. unfold handleFileSelect.
  destruct (includes allowedTypes (type file)) eqn:Hty; cbn [negb].
  - apply includes_In in Hty.
    destruct (Z.ltb_spec sizeLimit (size file)) as [Hbig | Hok].
    + split; [|now left]. split; [discriminate|].
      intros [_ Hle]. unfold sizeLimit in Hbig. lia.
    + split; [|right; now destruct reply]. split.
      * intros _. split; [exact Hty | exact Hok].
      * intros _. now destruct reply.
  - split; [|now left]. split; [discriminate|].
    intros [Hin _]. apply includes_In in Hin. unfold allowedTypes in Hty. congruence.
Qed.

(** X18: [uploadFile] makes one request, with the uploading flag set while it
    is made; afterwards the flag is cleared and the progress is 0 whatever the
    reply.  Of the three replies (an ok response with its body, a response
    that is not ok, a failed request) the first alone calls the upload
    callback, and the other two show an alert. *)
Theorem upload_always_resets (reply : Reply) (file : File) (st : UploadState) :
  exists before after,
    uploadFile reply file = before ++ FetchUpload file :: after /\
    isUploading (applyAll st before) = true /\
    List.existsb isRequest before = false /\
    List.existsb isRequest after = false /\
    applyAll st (uploadFile reply file) = mkUploadState false 0 (dragActive st) /\
    ((exists track_id filename, In (OnSongUploaded track_id filename) after) <->
     (exists track_id filename, reply = Ok track_id filename)) /\
    ((exists text, In (Alert text) after) <->
     ~ (exists track_id filename, reply = Ok track_id filename)).
Proof.
  exists [SetIsUploading true; SetUploadProgress 0].
  destruct reply as [tid name| |]; eexists; (split; [reflexivity|]);
    (split; [reflexivity|]); (split; [reflexivity|]); (split; [reflexivity|]);
    (split; [reflexivity|]); split; split.
  - intros _. eauto.
  - intros _. exists tid, name. now left.
  - intros (text & Hin) _.
    repeat (destruct Hin as [Hin | Hin]; [discriminate|]). destruct Hin.
  - intro H. exfalso. apply H. eauto.
  - intros (t & n & Hin).
    repeat (destruct Hin as [Hin | Hin]; [discriminate|]). destruct Hin.
  - intros (t & n & H). discriminate.
  - intros _ (t & n & H). discriminate.
  - intros _. eexists. right. left. reflexivity.
  - intros (t & n & Hin).
    repeat (destruct Hin as [Hin | Hin]; [discriminate|]). destruct Hin.
  - intros (t & n & H). discriminate.
  - intros _ (t & n & H). discriminate.
  - intros _. eexists. right. left. reflexivity.
Qed.

(** X19: dropping files clears the drag highlight and handles the first file
    only: a request, if one is made, carries the first file, and when the first
    file is of the wrong type or too large nothing is requested and the state
    is left as it is, whatever the other files are. *)
Theorem drop_uploads_first_file_only
  (reply : Reply) (st : UploadState) (file : File) (others : list File) :
  let '(st', actions) := handleDrop reply st (Some (file :: others)) in
  dragActive st' = false /\
  isUploading st' = isUploading st /\
  (List.filter isRequest actions = [] \/
   List.filter isRequest actions = [FetchUpload file]) /\
  (~ In (type file) allowedTypes \/ (sizeLimit < size file)%Z ->
   List.existsb isRequest actions = false /\ applyAll st' actions = st').
Proof.
  cbn [handleDrop selectFirst]. split; [reflexivity|]. split; [reflexivity|].
  split.
  - unfold handleFileSelect.
    destruct (negb (includes allowedTypes (type file))); [now left|].
    destruct (sizeLimit <? size file)%Z; [now left|]. right. now destruct reply.
  - intros Hbad. unfold handleFileSelect.
    destruct (includes allowedTypes (type file)) eqn:Hty; cbn [negb].
    + destruct Hbad as [Hnot | Hbig].
      * exfalso. apply Hnot. now apply includes_In.
      * apply Z.ltb_lt in Hbig. rewrite Hbig. split; reflexivity.
    + split; reflexivity.
Qed.

(** ** The HUD canvas *)

(** X20: for a pitch and an energy that are not negative, the pitch bar and
    the energy meter start at x = 20 and end at most at x = 780 on the 800
    pixel canvas; the pitch bar grows by 0.76 pixels per Hz and is full from
    1000 Hz on, the energy meter grows by 760 pixels per unit and is full from
    an energy of 1 on. *)
Theorem bars_stay_on_the_canvas (stats : Stats) :
  0 <= st_pitch stats ->
  0 <= st_energy stats ->
  let p := pitchBar canvasWidth canvasHeight stats in
  let e := energyMeter canvasWidth canvasHeight stats in
  (0 <= rwidth p /\ rx p + rwidth p <= canvasWidth - 20) /\
  (0 <= rwidth e /\ rx e + rwidth e <= canvasWidth - 20) /\
  (1000 <= st_pitch stats -> rwidth p == canvasWidth - 40) /\
  (1 <= st_energy stats -> rwidth e == canvasWidth - 40) /\
  (st_pitch stats <= 1000 -> rwidth p == 0.76 * st_pitch stats) /\
  (st_energy stats <= 1 -> rwidth e == 760 * st_energy stats).
Proof.
  intros Hp He. cbv zeta. unfold pitchBar, energyMeter, canvasWidth, canvasHeight.
  cbn [rx rwidth].
  assert (Hpn : st_pitch stats / 1000 == st_pitch stats * (1 # 1000)) by (field).
  assert (Hen : st_energy stats / 1.0 == st_energy stats) by (field).
  rewrite Hpn, Hen.
  destruct (Q.min_spec 1 (st_pitch stats * (1 # 1000))) as [[H1 ->] | [H1 ->]];
    destruct (Q.min_spec 1 (st_energy stats)) as [[H2 ->] | [H2 ->]];
    repeat split; intros; lra.
Qed.

Lemma bars_stay_on_the_canvas_witness :
  let stats := mergeStats initialStats
                 (calculateScoringMetrics plainEnv 440 (1 # 4) 0.8) in
  let p := pitchBar canvasWidth canvasHeight stats in
  let e := energyMeter canvasWidth canvasHeight stats in
  (0 <= rwidth p /\ rx p + rwidth p <= canvasWidth - 20) /\
  (0 <= rwidth e /\ rx e + rwidth e <= canvasWidth - 20) /\
  (1000 <= st_pitch stats -> rwidth p == canvasWidth - 40) /\
  (1 <= st_energy stats -> rwidth e == canvasWidth - 40) /\
  (st_pitch stats <= 1000 -> rwidth p == 0.76 * st_pitch stats) /\
  (st_energy stats <= 1 -> rwidth e == 760 * st_energy stats).
Proof.
  apply (bars_stay_on_the_canvas
           (mergeStats initialStats
              (calculateScoringMetrics plainEnv 440 (1 # 4) 0.8)));
    discriminate.
Defined.

(** X21: the timing indicator, 4 pixels wide, lies within the 800 pixel canvas
    exactly when the timing error of the statistics is between -7.96 and 7.96;
    the scorer reports timing errors of up to 50. *)
Theorem timing_indicator_on_canvas_iff (stats : Stats) :
  let t := timingIndicator canvasWidth canvasHeight stats in
  (0 <= rx t /\ rx t + rwidth t <= canvasWidth) <->
  (- 7.96 <= st_timingErr stats <= 7.96).
Proof.
  cbv zeta. unfold timingIndicator, canvasWidth. cbn [rx rwidth].
  assert (H : 800 / 2 == 400) by reflexivity. rewrite H.
  split; intros [H1 H2]; split; lra.
Qed.
